(** * Cyber DT Vault: the application state machine of [src/App.tsx]

    The repository ships one source file, the React component [App] of
    [src/App.tsx].  Its event handlers drive a five-state machine
    ([AppState]) on top of a vault engine that they reach only through the
    imported [VaultService] object ([./services/VaultService], which is not
    part of the sources).

    The development has three parts.

    - Module [App]: the handlers of [src/App.tsx], written in a small
      state-and-rejection monad that threads the component's React state,
      the engine behind [VaultService] and a log of the setter calls and
      service requests, in the order in which the source performs them.
      The engine is a parameter of every handler.  A handler runs from
      its call to the settling of its promise as one step: what another
      handler could do while this one waits at an [await] is not
      modelled.
    - Module [Engine]: the vault engine and the password generator, which
      the sources do not contain, modelled from sections 3, 4 and 6 of the
      specification.
    - Module [Toy]: small concrete instances of the cryptographic
      interfaces, on which the theorems are exercised. *)

From Stdlib Require Import String Ascii.
From stdpp Require Import base option list strings gmap.

Open Scope string_scope.
Open Scope list_scope.

(** ** Data shared by the application and the engine *)

(** [VaultItem], imported by [src/App.tsx] line 25 and built at line 119. *)
Record VaultItem : Type := mkVaultItem {
  id : string;
  title : string;
  username : string;
  password : string
}.

#[global] Instance VaultItem_eq_dec : EqDecision VaultItem.
Proof. solve_decision. Defined.

(** Modelled from the spec: the errors that the missing [VaultService]
    rejects with, the taxonomy of section 7.  The handlers of
    [src/App.tsx] catch a rejection without inspecting it. *)
Inductive VaultError : Type :=
| AuthFailure
| AlreadyInitialized
| NotRecovered
| NotUnlocked
| StorageFailure
| InvalidParameters.

#[global] Instance VaultError_eq_dec : EqDecision VaultError.
Proof. solve_decision. Defined.

(** A settled promise: fulfilled with a value or rejected with an error. *)
Inductive Promise (A : Type) : Type :=
| Fulfilled (a : A)
| Rejected (e : VaultError).

Arguments Fulfilled {A} a.
Arguments Rejected {A} e.

(** The interface of the imported [VaultService] object, as [src/App.tsx]
    calls it; its implementation is a parameter of the handlers.  [V] is
    the state behind the service (persistent record and session); every
    call may change it and settles as a promise. *)
Module VaultService.

Record t (V : Type) : Type := Build {
  hasExistingVault : V -> V * Promise bool;
  initializeVault : string -> V -> V * Promise string;
  unlockVault : string -> V -> V * Promise (list VaultItem);
  recoverVault : string -> V -> V * Promise (list VaultItem);
  resetMasterPassword : string -> V -> V * Promise unit;
  saveVault : list VaultItem -> V -> V * Promise unit
}.

Arguments Build {V}.
Arguments hasExistingVault {V}.
Arguments initializeVault {V}.
Arguments unlockVault {V}.
Arguments recoverVault {V}.
Arguments resetMasterPassword {V}.
Arguments saveVault {V}.

End VaultService.

(** ** The application of [src/App.tsx] *)
Module App.

(** [enum AppState], lines 27-33. *)
Inductive AppState : Type :=
| LOADING
| SETUP
| LOCKED
| RECOVERY_SUCCESS
| UNLOCKED.

#[global] Instance AppState_eq_dec : EqDecision AppState.
Proof. solve_decision. Defined.

(** [document.visibilityState], read at line 59. *)
Inductive VisibilityState : Type :=
| visible
| hidden.

#[global] Instance VisibilityState_eq_dec : EqDecision VisibilityState.
Proof. solve_decision. Defined.

(** The five [useState] cells of the component, lines 45-49. *)
Record UI : Type := mkUI {
  appState : AppState;
  items : list VaultItem;
  recoveryKey : option string;
  error : option string;
  showPassword : gmap string bool
}.

(** A request sent to [VaultService]. *)
Inductive Request : Type :=
| ReqHasExistingVault
| ReqInitializeVault (pwd : string)
| ReqUnlockVault (pwd : string)
| ReqRecoverVault (rKey : string)
| ReqResetMasterPassword (newPwd : string)
| ReqSaveVault (updated : list VaultItem).

(** What a handler does that is visible from outside: a state setter call,
    the cooperative pause [yieldToUI] or a request to the service. *)
Inductive Event : Type :=
| SetAppState (s : AppState)
| SetItems (l : list VaultItem)
| SetRecoveryKey (k : option string)
| SetError (e : option string)
| SetShowPassword (m : gmap string bool)
| YieldToUI
| Call (r : Request).

#[global] Instance Request_eq_dec : EqDecision Request.
Proof. solve_decision. Defined.

#[global] Instance Event_eq_dec : EqDecision Event.
Proof. solve_decision. Defined.

Section WithService.

Context {V : Type}.

(** The component state, the state behind the service and the log of
    events, oldest first. *)
Record World : Type := mkWorld {
  ui : UI;
  vault : V;
  trace : list Event
}.

(** An [async] function body: it transforms the world and settles. *)
Definition Handler (A : Type) : Type := World -> World * Promise A.

#[local] Instance Handler_ret : MRet Handler :=
  fun A a w => (w, Fulfilled a).

#[local] Instance Handler_bind : MBind Handler :=
  fun A B k m w =>
    match m w with
    | (w', Fulfilled a) => k a w'
    | (w', Rejected e) => (w', Rejected e)
    end.

(** [throw e]. *)
Definition throw {A : Type} (e : VaultError) : Handler A :=
  fun w => (w, Rejected e).

(** [try { body } catch (e) { handler e }]. *)
Definition try_catch {A : Type} (body : Handler A) (handler : VaultError -> Handler A)
  : Handler A :=
  fun w =>
    match body w with
    | (w', Fulfilled a) => (w', Fulfilled a)
    | (w', Rejected e) => handler e w'
    end.

Definition log (ev : Event) (w : World) : World :=
  mkWorld (ui w) (vault w) (trace w ++ [ev]).

Definition update (f : UI -> UI) (ev : Event) : Handler unit :=
  fun w => (log ev (mkWorld (f (ui w)) (vault w) (trace w)), Fulfilled tt).

Definition setAppState (s : AppState) : Handler unit :=
  update (fun u => mkUI s (items u) (recoveryKey u) (error u) (showPassword u))
         (SetAppState s).

Definition setItems (l : list VaultItem) : Handler unit :=
  update (fun u => mkUI (appState u) l (recoveryKey u) (error u) (showPassword u))
         (SetItems l).

Definition setRecoveryKey (k : option string) : Handler unit :=
  update (fun u => mkUI (appState u) (items u) k (error u) (showPassword u))
         (SetRecoveryKey k).

Definition setError (e : option string) : Handler unit :=
  update (fun u => mkUI (appState u) (items u) (recoveryKey u) e (showPassword u))
         (SetError e).

Definition setShowPassword (f : gmap string bool -> gmap string bool) : Handler unit :=
  fun w =>
    let m := f (showPassword (ui w)) in
    update (fun u => mkUI (appState u) (items u) (recoveryKey u) (error u) m)
           (SetShowPassword m) w.

(** The values a handler closes over. *)
Definition readAppState : Handler AppState := fun w => (w, Fulfilled (appState (ui w))).
Definition readItems : Handler (list VaultItem) := fun w => (w, Fulfilled (items (ui w))).

(** [yieldToUI], line 42: a pause that resolves after 100 ms. *)
Definition yieldToUI : Handler unit :=
  fun w => (log YieldToUI w, Fulfilled tt).

(** [await VaultService.op(args)]: the request is logged, the service runs
    on its own state, and a rejection propagates. *)
Definition await {A : Type} (r : Request) (op : V -> V * Promise A) : Handler A :=
  fun w =>
    let w1 := log (Call r) w in
    let '(v', p) := op (vault w1) in
    (mkWorld (ui w1) v' (trace w1), p).

Context (svc : VaultService.t V).

(** [handleLock], lines 51-55. *)
Definition handleLock : Handler unit :=
  setItems [] ;;
  setAppState LOCKED ;;
  setError None.

(** [handleVisibilityChange], lines 58-62. *)
Definition handleVisibilityChange (visibilityState : VisibilityState) : Handler unit :=
  st ← readAppState ;
  if bool_decide (visibilityState = hidden) && bool_decide (st = UNLOCKED)
  then handleLock
  else mret tt.

(** [checkState], lines 68-71. *)
Definition checkState : Handler unit :=
  hasVault ← await ReqHasExistingVault (VaultService.hasExistingVault svc) ;
  setAppState (if hasVault : bool then LOCKED else SETUP).

(** [handleSetup], lines 75-84. *)
Definition handleSetup (pwd : string) : Handler unit :=
  setError None ;;
  yieldToUI ;;
  try_catch
    (rKey ← await (ReqInitializeVault pwd) (VaultService.initializeVault svc pwd) ;
     setRecoveryKey (Some rKey) ;;
     setItems [] ;;
     setAppState UNLOCKED)
    (fun e => setError (Some "Failed to initialize vault.")).

(** [handleUnlock], lines 86-94. *)
Definition handleUnlock (pwd : string) : Handler unit :=
  setError None ;;
  yieldToUI ;;
  try_catch
    (decryptedItems ← await (ReqUnlockVault pwd) (VaultService.unlockVault svc pwd) ;
     setItems decryptedItems ;;
     setAppState UNLOCKED)
    (fun e => setError (Some "Invalid master password.")).

(** [handleRecover], lines 96-104. *)
Definition handleRecover (rKey : string) : Handler unit :=
  setError None ;;
  yieldToUI ;;
  try_catch
    (decryptedItems ← await (ReqRecoverVault rKey) (VaultService.recoverVault svc rKey) ;
     setItems decryptedItems ;;
     setAppState RECOVERY_SUCCESS)
    (fun e => setError (Some "Invalid recovery key.")).

(** [handlePasswordReset], lines 106-116. *)
Definition handlePasswordReset (newPwd : string) : Handler unit :=
  setError None ;;
  yieldToUI ;;
  try_catch
    (await (ReqResetMasterPassword newPwd) (VaultService.resetMasterPassword svc newPwd) ;;
     setAppState UNLOCKED)
    (fun e =>
       setError (Some "Failed to update master password. Hardware key error.") ;;
       throw e).

(** [handleAdd], lines 118-123.  [uuid] is the value that
    [crypto.randomUUID()] returns at line 119. *)
Definition handleAdd (uuid : string) (title user pass : string) : Handler unit :=
  items ← readItems ;
  let newItem := mkVaultItem uuid title user pass in
  let updated := items ++ [newItem] in
  setItems updated ;;
  await (ReqSaveVault updated) (VaultService.saveVault svc updated).

(** [handleDelete], lines 125-129. *)
Definition handleDelete (id0 : string) : Handler unit :=
  items ← readItems ;
  let updated := filter (fun i => id i ≠ id0) items in
  setItems updated ;;
  await (ReqSaveVault updated) (VaultService.saveVault svc updated).

(** [toggleVisibility], lines 131-133: [!p[id]] is [true] for a missing key. *)
Definition toggleVisibility (id0 : string) : Handler unit :=
  setShowPassword (fun p => <[id0 := negb (default false (p !! id0))]> p).

(** What the user or the browser can do to the mounted component. *)
Inductive Action : Type :=
| VisibilityChange (v : VisibilityState)
| Setup (pwd : string)
| Unlock (pwd : string)
| Recover (rKey : string)
| ClearError
| PasswordReset (newPwd : string)
| Add (uuid title user pass : string)
| Delete (id0 : string)
| Lock
| ToggleVisibility (id0 : string)
| CloseRecovery.

(** Which handlers the render of lines 135-167 hands to a screen in each
    state.  [LOADING] renders a spinner only; the [visibilitychange]
    listener of lines 57-65 is registered in every state. *)
Definition offered (s : AppState) (a : Action) : bool :=
  match a, s with
  | VisibilityChange _, _ => true
  | Setup _, SETUP => true
  | Unlock _, LOCKED => true
  | Recover _, LOCKED => true
  | ClearError, LOCKED => true
  | PasswordReset _, RECOVERY_SUCCESS => true
  | Add _ _ _ _, UNLOCKED => true
  | Delete _, UNLOCKED => true
  | Lock, UNLOCKED => true
  | ToggleVisibility _, UNLOCKED => true
  | CloseRecovery, UNLOCKED => true
  | _, _ => false
  end.

Definition dispatch (a : Action) : Handler unit :=
  match a with
  | VisibilityChange v => handleVisibilityChange v
  | Setup pwd => handleSetup pwd
  | Unlock pwd => handleUnlock pwd
  | Recover rKey => handleRecover rKey
  | ClearError => setError None
  | PasswordReset newPwd => handlePasswordReset newPwd
  | Add uuid title user pass => handleAdd uuid title user pass
  | Delete id0 => handleDelete id0
  | Lock => handleLock
  | ToggleVisibility id0 => toggleVisibility id0
  | CloseRecovery => setRecoveryKey None
  end.

(** One action on the mounted component: an action that no screen offers
    in the current state cannot be taken. *)
Definition step (w : World) (a : Action) : World :=
  if offered (appState (ui w)) a then (dispatch a w).1 else w.

(** The component before its first effect: lines 45-49. *)
Definition initial (v : V) : World :=
  mkWorld (mkUI LOADING [] None None ∅) v [].

(** Mounting runs the effect of lines 67-73 once. *)
Definition mount (v : V) : World := (checkState (initial v)).1.

(** Between two actions anything may happen to what lies behind the
    service (the record on disk is damaged, the store starts to fail). *)
Definition behind (v : V) (w : World) : World := mkWorld (ui w) v (trace w).

Inductive reachable : World -> Prop :=
| reachable_mount (v : V) : reachable (mount v)
| reachable_step (w : World) (a : Action) : reachable w -> reachable (step w a)
| reachable_behind (w : World) (v : V) : reachable w -> reachable (behind v w).

(** The events that [h] adds to the log when run from [w]. *)
Definition events_of {A : Type} (h : Handler A) (w : World) : list Event :=
  drop (length (trace w)) (trace (h w).1).

End WithService.

Arguments World V : clear implicits.
Arguments Handler V A : clear implicits.

End App.

(** ** The vault engine behind [VaultService]

    [./services/VaultService] is imported by [src/App.tsx] and is not in
    the sources.  Everything in this module is modelled from the
    specification. *)
Module Engine.

Abbreviation bytes := (list Byte.byte).

#[global] Instance byte_eq_dec : EqDecision Byte.byte := Byte.byte_eq_dec.

(** Modelled from the spec: a password or recovery secret as the bytes
    handed to the KDF. *)
Definition bytes_of_string (s : string) : bytes := list_byte_of_string s.

(** Modelled from the spec: the [kdf_params] field of the VaultRecord
    (section 3), [{ algorithm, salt: bytes, cost parameters }]. *)
Record KdfParams : Type := mkKdfParams {
  algorithm : string;
  salt : bytes;
  cost : nat
}.

(** Modelled from the spec: the KDF module (section 4.1),
    [derive(secret, salt, params) -> key].  It is a function, so the same
    inputs always give the same key; it fails only on malformed
    parameters, and the parameters that the engine itself generates
    ([kdf_algorithm], a fresh salt, [kdf_cost]) are well formed. *)
Class KDF : Type := {
  kdf_algorithm : string;
  kdf_cost : nat;
  derive : bytes -> KdfParams -> option bytes;
  derive_fresh : forall secret s,
    is_Some (derive secret (mkKdfParams kdf_algorithm s kdf_cost))
}.

(** Modelled from the spec: the AEAD module (section 4.2), [seal] and
    [open].  [open_seal] is correctness.  [open_unique] is the idealised
    form of "fail closed": a ciphertext never opens to two different
    plaintexts, whatever key and nonce are tried. *)
Class AEAD : Type := {
  seal : bytes -> bytes -> bytes -> bytes;
  open : bytes -> bytes -> bytes -> option bytes;
  open_seal : forall key n plaintext,
    open key n (seal key n plaintext) = Some plaintext;
  open_unique : forall key n key' n' c p p',
    open key n c = Some p -> open key' n' c = Some p' -> p = p'
}.

(** Modelled from the spec: the serialization of the item collection
    (section 6 leaves the format to the implementation; section 3 asks
    that the ciphertext decrypt to a well-formed collection). *)
Class Codec : Type := {
  serialize : list VaultItem -> bytes;
  deserialize : bytes -> option (list VaultItem);
  deserialize_serialize : forall c, deserialize (serialize c) = Some c
}.

(** Modelled from the spec: the CSPRNG that sections 4.2, 4.3 and 4.6
    draw from.  [random d n] is the [d]-th draw, of [n] bytes. *)
Class CSPRNG : Type := {
  random : nat -> nat -> bytes;
  random_length : forall d n, length (random d n) = n
}.

(** Modelled from the spec: a wrapped key, [{ nonce, ciphertext }]. *)
Record Wrapped : Type := mkWrapped {
  nonce : bytes;
  ciphertext : bytes
}.

(** Modelled from the spec: the VaultRecord of section 3. *)
Record VaultRecord : Type := mkVaultRecord {
  version : nat;
  kdf_params : KdfParams;
  wrapped_vek_by_password : Wrapped;
  recovery_kdf_params : KdfParams;
  wrapped_vek_by_recovery : Wrapped;
  items_nonce : bytes;
  items_ciphertext : bytes
}.

(** Modelled from the spec: the Persistence Store of section 4.5, holding
    at most one record.  [faulty] is set by the environment; a write to a
    faulty store fails with IOFailure and leaves the content as it was. *)
Record Store : Type := mkStore {
  content : option VaultRecord;
  faulty : bool
}.

(** Modelled from the spec: [exists], [read] and [write] of section 4.5. *)
Definition exists_ (s : Store) : bool := bool_decide (is_Some (content s)).

Definition read (s : Store) : option VaultRecord := content s.

Definition write (r : VaultRecord) (s : Store) : option Store :=
  if faulty s then None else Some (mkStore (Some r) (faulty s)).

(** Modelled from the spec: what the engine holds in memory.  The VEK and
    the item collection exist only between a successful unlock or
    recovery and the next lock (section 3, lifecycle). *)
Inductive Session : Type :=
| NoSession
| Unlocked (vek : bytes) (items : list VaultItem)
| Recovered (vek : bytes) (items : list VaultItem).

(** Modelled from the spec: the single engine instance of section 9, the
    store it writes to, its session and the number of random draws made. *)
Record Engine : Type := mkEngine {
  store : Store;
  session : Session;
  draws : nat
}.

(** Modelled from the spec: the states of section 4.4. *)
Inductive EngineState : Type :=
| NO_VAULT
| LOCKED
| UNLOCKED
| RECOVERED.

(** Modelled from the spec: [NO_VAULT] persists as [LOCKED] once a record
    exists (section 4.4). *)
Definition state_of (e : Engine) : EngineState :=
  match session e, content (store e) with
  | Unlocked _ _, _ => UNLOCKED
  | Recovered _ _, _ => RECOVERED
  | NoSession, Some _ => LOCKED
  | NoSession, None => NO_VAULT
  end.

(** Modelled from the spec: the item collection held in memory, empty
    when there is no session. *)
Definition held_items (e : Engine) : list VaultItem :=
  match session e with
  | NoSession => []
  | Unlocked _ l | Recovered _ l => l
  end.

(** Modelled from the spec: the recovery secret is a printable key of 48
    characters (section 8; "HEX KEY" at [src/App.tsx] line 329): 24 random
    bytes in lower-case hexadecimal, two characters per byte. *)
Definition hex_digit (n : N) : ascii :=
  ascii_of_N (if (n <? 10)%N then 48 + n else 87 + n)%N.

Fixpoint hex (b : bytes) : string :=
  match b with
  | [] => EmptyString
  | x :: b' =>
      String (hex_digit (Byte.to_N x / 16)) (String (hex_digit (Byte.to_N x mod 16)) (hex b'))
  end.

Section WithCrypto.

Context {kdf : KDF} {aead : AEAD} {codec : Codec} {rng : CSPRNG}.

(** Modelled from the spec: parameters generated fresh per vault and per
    escrow path (section 4.1). *)
Definition fresh_params (s : bytes) : KdfParams := mkKdfParams kdf_algorithm s kdf_cost.

(** Modelled from the spec: [wrap] and [unwrap] of the Key-Escrow Manager
    (section 4.3). *)
Definition wrap (vek wrapping_key n : bytes) : Wrapped :=
  mkWrapped n (seal wrapping_key n vek).

Definition unwrap (wrapping_key : bytes) (w : Wrapped) : option bytes :=
  open wrapping_key (nonce w) (ciphertext w).

(** Modelled from the spec: the two escrow paths of a record (section
    4.3): derive the wrapping key from the secret and the stored
    parameters, then unwrap. *)
Definition unwrap_by_password (pwd : string) (r : VaultRecord) : option bytes :=
  pdk ← derive (bytes_of_string pwd) (kdf_params r) ;
  unwrap pdk (wrapped_vek_by_password r).

Definition unwrap_by_recovery (secret : string) (r : VaultRecord) : option bytes :=
  rdk ← derive (bytes_of_string secret) (recovery_kdf_params r) ;
  unwrap rdk (wrapped_vek_by_recovery r).

(** Modelled from the spec: [items_ciphertext] decrypts under the VEK to
    a well-formed collection (section 3). *)
Definition open_items (vek : bytes) (r : VaultRecord) : option (list VaultItem) :=
  plain ← open vek (items_nonce r) (items_ciphertext r) ;
  deserialize plain.

(** Modelled from the spec: sizes, in bytes, of what the engine draws. *)
Definition key_length : nat := 32.
Definition salt_length : nat := 16.
Definition nonce_length : nat := 12.
Definition recovery_length : nat := 24.

(** Modelled from the spec: [hasExistingVault], section 4.4. *)
Definition hasExistingVault (e : Engine) : Engine * Promise bool :=
  (e, Fulfilled (exists_ (store e))).

(** Modelled from the spec: [initialize(password)], sections 4.3 and 4.4.
    Draws, in order: password salt, recovery salt, recovery secret, VEK
    and three nonces. *)
Definition initializeVault (pwd : string) (e : Engine) : Engine * Promise string :=
  let d := draws e in
  let e' := mkEngine (store e) (session e) (d + 7) in
  if exists_ (store e) then (e, Rejected AlreadyInitialized) else
  let params_p := fresh_params (random d salt_length) in
  let params_r := fresh_params (random (d + 1) salt_length) in
  let secret := hex (random (d + 2) recovery_length) in
  let vek := random (d + 3) key_length in
  match derive (bytes_of_string pwd) params_p,
        derive (bytes_of_string secret) params_r with
  | Some pdk, Some rdk =>
      let n_items := random (d + 6) nonce_length in
      let r := mkVaultRecord 1
                 params_p (wrap vek pdk (random (d + 4) nonce_length))
                 params_r (wrap vek rdk (random (d + 5) nonce_length))
                 n_items (seal vek n_items (serialize [])) in
      match write r (store e) with
      | Some s => (mkEngine s (Unlocked vek []) (d + 7), Fulfilled secret)
      | None => (e', Rejected StorageFailure)
      end
  | _, _ => (e', Rejected InvalidParameters)
  end.

(** Modelled from the spec: [unlock(password)].  Every failure on the way
    (no record, key derivation, unwrapping, opening or decoding the
    items) is the one [AuthFailure], and leaves the engine as it was. *)
Definition unlockVault (pwd : string) (e : Engine) : Engine * Promise (list VaultItem) :=
  match r ← read (store e) ;
        vek ← unwrap_by_password pwd r ;
        l ← open_items vek r ;
        Some (vek, l) with
  | Some (vek, l) => (mkEngine (store e) (Unlocked vek l) (draws e), Fulfilled l)
  | None => (e, Rejected AuthFailure)
  end.

(** Modelled from the spec: [recover(recoverySecret)]. *)
Definition recoverVault (secret : string) (e : Engine) : Engine * Promise (list VaultItem) :=
  match r ← read (store e) ;
        vek ← unwrap_by_recovery secret r ;
        l ← open_items vek r ;
        Some (vek, l) with
  | Some (vek, l) => (mkEngine (store e) (Recovered vek l) (draws e), Fulfilled l)
  | None => (e, Rejected AuthFailure)
  end.

(** Modelled from the spec: [resetMasterPassword(newPassword)], sections
    4.3 (rotation) and 6.  Only the password-escrow fields are rewritten. *)
Definition resetMasterPassword (newPwd : string) (e : Engine) : Engine * Promise unit :=
  match session e, read (store e) with
  | Recovered vek l, Some r =>
      let d := draws e in
      let e' := mkEngine (store e) (session e) (d + 2) in
      let params_p := fresh_params (random d salt_length) in
      match derive (bytes_of_string newPwd) params_p with
      | Some pdk =>
          let r' := mkVaultRecord (version r)
                      params_p (wrap vek pdk (random (d + 1) nonce_length))
                      (recovery_kdf_params r) (wrapped_vek_by_recovery r)
                      (items_nonce r) (items_ciphertext r) in
          match write r' (store e) with
          | Some s => (mkEngine s (Unlocked vek l) (d + 2), Fulfilled tt)
          | None => (e', Rejected StorageFailure)
          end
      | None => (e', Rejected InvalidParameters)
      end
  | _, _ => (e, Rejected NotRecovered)
  end.

(** Modelled from the spec: [save(items)]: the whole collection is
    re-encrypted under the VEK with a fresh nonce and persisted. *)
Definition saveVault (l : list VaultItem) (e : Engine) : Engine * Promise unit :=
  let d := draws e in
  let keep (vek : bytes) (mk : bytes -> list VaultItem -> Session) :=
    match read (store e) with
    | Some r =>
        let n_items := random d nonce_length in
        let r' := mkVaultRecord (version r)
                    (kdf_params r) (wrapped_vek_by_password r)
                    (recovery_kdf_params r) (wrapped_vek_by_recovery r)
                    n_items (seal vek n_items (serialize l)) in
        match write r' (store e) with
        | Some s => (mkEngine s (mk vek l) (d + 1), Fulfilled tt)
        | None => (mkEngine (store e) (session e) (d + 1), Rejected StorageFailure)
        end
    | None => (e, Rejected StorageFailure)
    end in
  match session e with
  | Unlocked vek _ => keep vek Unlocked
  | Recovered vek _ => keep vek Recovered
  | NoSession => (e, Rejected NotUnlocked)
  end.

(** Modelled from the spec: [lock()]: the VEK and the items are dropped. *)
Definition lock (e : Engine) : Engine :=
  mkEngine (store e) NoSession (draws e).

(** Modelled from the spec: the engine as the [VaultService] object that
    [src/App.tsx] imports. *)
Definition service : VaultService.t Engine :=
  VaultService.Build hasExistingVault initializeVault unlockVault recoverVault
                     resetMasterPassword saveVault.

(** Modelled from the spec: an operation of section 4.4, or the
    environment making the store faulty or healthy again. *)
Inductive Op : Type :=
| OpInitialize (pwd : string)
| OpUnlock (pwd : string)
| OpRecover (secret : string)
| OpReset (newPwd : string)
| OpSave (l : list VaultItem)
| OpLock
| OpFault (b : bool).

Definition settled {A : Type} (x : Engine * Promise A) : Engine * bool :=
  (x.1, match x.2 with Fulfilled _ => true | Rejected _ => false end).

(** Modelled from the spec: the collaborator's I/O failure (section 7);
    the environment makes the store faulty ([true]) or healthy again. *)
Definition set_faulty (b : bool) (e : Engine) : Engine :=
  mkEngine (mkStore (content (store e)) b) (session e) (draws e).

(** Modelled from the spec: the engine after an operation, and whether
    the operation succeeded. *)
Definition exec (op : Op) (e : Engine) : Engine * bool :=
  match op with
  | OpInitialize pwd => settled (initializeVault pwd e)
  | OpUnlock pwd => settled (unlockVault pwd e)
  | OpRecover secret => settled (recoverVault secret e)
  | OpReset newPwd => settled (resetMasterPassword newPwd e)
  | OpSave l => settled (saveVault l e)
  | OpLock => (lock e, true)
  | OpFault b => (set_faulty b e, true)
  end.

(** Modelled from the spec: the master password after an operation; a
    successful reset replaces it (section 4.3, rotation), nothing else
    does. *)
Definition password_after (op : Op) (e : Engine) (pwd : string) : string :=
  match op with
  | OpReset newPwd => if (exec op e).2 then newPwd else pwd
  | _ => pwd
  end.

(** Modelled from the spec: the lifecycle of section 3.
    [holds_vault e pwd secret]: the engine [e] holds a vault that was
    initialized from [NO_VAULT] and then operated on in any way; [pwd] is
    its current master password and [secret] the recovery secret that
    [initialize] returned. *)
Inductive holds_vault : Engine -> string -> string -> Prop :=
| holds_vault_initialize (e0 e : Engine) (pwd secret : string) :
    content (store e0) = None ->
    session e0 = NoSession ->
    initializeVault pwd e0 = (e, Fulfilled secret) ->
    holds_vault e pwd secret
| holds_vault_exec (e : Engine) (pwd secret : string) (op : Op) :
    holds_vault e pwd secret ->
    holds_vault (exec op e).1 (password_after op e pwd) secret.

End WithCrypto.

End Engine.

(** ** The password generator behind [VaultService.generateSecurePassword]

    Called at [src/App.tsx] line 434; its code is not in the sources. *)
Module Generator.

(** Modelled from the spec: the character classes of section 4.6. *)
Inductive CharClass : Type :=
| Uppercase
| Lowercase
| Digit
| Symbol.

#[global] Instance CharClass_eq_dec : EqDecision CharClass.
Proof. solve_decision. Defined.

(** Modelled from the spec: the characters the generator draws from, per
    class (section 4.6 names the classes and not their members). *)
Definition alphabet (c : CharClass) : list ascii :=
  list_ascii_of_string
    match c with
    | Uppercase => "ABCDEFGHIJKLMNOPQRSTUVWXYZ"
    | Lowercase => "abcdefghijklmnopqrstuvwxyz"
    | Digit => "0123456789"
    | Symbol => "!@#$%^&*()-_=+[]{}<>?"
    end.

(** Membership in a class, by character code, as the strength meter of
    [src/App.tsx] lines 220-222 tests it: [/[A-Z]/], [/[0-9]/], and a
    symbol is [/[^A-Za-z0-9]/]. *)
Definition is_upper (ch : ascii) : bool :=
  (65 <=? nat_of_ascii ch)%nat && (nat_of_ascii ch <=? 90)%nat.

Definition is_lower (ch : ascii) : bool :=
  (97 <=? nat_of_ascii ch)%nat && (nat_of_ascii ch <=? 122)%nat.

Definition is_digit (ch : ascii) : bool :=
  (48 <=? nat_of_ascii ch)%nat && (nat_of_ascii ch <=? 57)%nat.

Definition is_symbol (ch : ascii) : bool :=
  negb (is_upper ch || is_lower ch || is_digit ch).

Definition in_class (c : CharClass) (ch : ascii) : bool :=
  match c with
  | Uppercase => is_upper ch
  | Lowercase => is_lower ch
  | Digit => is_digit ch
  | Symbol => is_symbol ch
  end.

(** [contains c s]: the string [s] has a character of class [c]. *)
Definition contains (c : CharClass) (s : string) : bool :=
  existsb (in_class c) (list_ascii_of_string s).

(** Modelled from the spec: a draw from a pool of characters, the
    [r]-th counting cyclically. *)
Definition pick (pool : list ascii) (r : nat) : ascii :=
  nth (r mod length pool) pool zero.

Definition insert_at {A : Type} (i : nat) (x : A) (l : list A) : list A :=
  take i l ++ x :: drop i l.

(** Modelled from the spec: a shuffle by random insertion, so that the
    mandatory characters sit at no fixed position: the head goes to a
    random position of the shuffled tail. *)
Fixpoint shuffle {A : Type} (rnd : nat -> nat) (l : list A) : list A :=
  match l with
  | [] => []
  | x :: l' =>
      let s := shuffle (fun j => rnd (S j)) l' in
      insert_at (rnd 0 mod S (length s)) x s
  end.

(** Modelled from the spec: [generate(length, required classes)] of
    section 4.6.  [rnd k] is the [k]-th number drawn from the CSPRNG.  One
    character is drawn from each required class, the remaining positions
    are drawn from the union of the required classes, and the result is
    shuffled.  It fails only on an invalid length or class configuration. *)
Definition generate (length : nat) (required : list CharClass) (rnd : nat -> nat)
  : VaultError + string :=
  let k := List.length required in
  if (k =? 0)%nat || (length <? k)%nat then inl InvalidParameters else
  let mandatory := imap (fun i c => pick (alphabet c) (rnd i)) required in
  let pool := concat (map alphabet required) in
  let rest := map (fun j => pick pool (rnd (k + j))) (seq 0 (length - k)) in
  inr (string_of_list_ascii (shuffle (fun j => rnd (length + j)) (mandatory ++ rest))).

(** Modelled from the spec: [generateSecurePassword(length)] of section 6
    with the policy of section 8, all four classes. *)
Definition generateSecurePassword (length : nat) (rnd : nat -> nat) : VaultError + string :=
  generate length [Uppercase; Lowercase; Digit; Symbol] rnd.

End Generator.

(** ** Concrete instances of the cryptographic interfaces

    None of these is secure.  They show that the laws of [Engine.KDF],
    [Engine.AEAD], [Engine.Codec] and [Engine.CSPRNG] can be met together,
    and they let the engine run on concrete inputs. *)
Module Toy.

Import Engine.

(** A self-delimiting frame: the length in unary, a zero byte, the data. *)
Definition frame (x : bytes) : bytes :=
  replicate (length x) Byte.x01 ++ Byte.x00 :: x.

Fixpoint skip_ones (l : bytes) (n : nat) : option (nat * bytes) :=
  match l with
  | [] => None
  | b :: l' =>
      if decide (b = Byte.x01) then skip_ones l' (S n)
      else if decide (b = Byte.x00) then Some (n, l')
      else None
  end.

Definition unframe (l : bytes) : option (bytes * bytes) :=
  '(n, r) ← skip_ones l 0 ;
  if decide (n ≤ length r)%nat then Some (take n r, drop n r) else None.

(** The ciphertext names its key and nonce in the clear. *)
Definition seal (key n plaintext : bytes) : bytes :=
  frame key ++ frame n ++ plaintext.

Definition payload (c : bytes) : option (bytes * bytes * bytes) :=
  '(key, r) ← unframe c ;
  '(n, p) ← unframe r ;
  Some (key, n, p).

Definition open (key n c : bytes) : option bytes :=
  '(key', n', p) ← payload c ;
  if decide (key' = key ∧ n' = n) then Some p else None.

Definition derive (secret : bytes) (p : KdfParams) : option bytes :=
  if decide (algorithm p = "toy") then Some (salt p ++ secret) else None.

Definition item_bytes (i : VaultItem) : bytes :=
  frame (bytes_of_string (id i)) ++ frame (bytes_of_string (title i)) ++
  frame (bytes_of_string (username i)) ++ frame (bytes_of_string (password i)).

Definition serialize (l : list VaultItem) : bytes :=
  replicate (length l) Byte.x01 ++ Byte.x00 :: concat (map item_bytes l).

Definition parse_item (b : bytes) : option (VaultItem * bytes) :=
  '(a, r1) ← unframe b ;
  '(t, r2) ← unframe r1 ;
  '(u, r3) ← unframe r2 ;
  '(p, r4) ← unframe r3 ;
  Some (mkVaultItem (string_of_list_byte a) (string_of_list_byte t)
                    (string_of_list_byte u) (string_of_list_byte p), r4).

Fixpoint parse_items (n : nat) (b : bytes) : option (list VaultItem) :=
  match n with
  | 0 => if decide (b = []) then Some [] else None
  | S n' =>
      '(i, r) ← parse_item b ;
      l ← parse_items n' r ;
      Some (i :: l)
  end.

Definition deserialize (b : bytes) : option (list VaultItem) :=
  '(n, r) ← skip_ones b 0 ;
  parse_items n r.

Definition random (d n : nat) : bytes :=
  replicate n (default Byte.x00 (Byte.of_nat (d mod 256))).

Lemma skip_ones_replicate (k n : nat) (r : bytes) :
  skip_ones (replicate k Byte.x01 ++ Byte.x00 :: r) n = Some (n + k, r).
Proof.
  revert n. induction k as [|k IH]; intros n; simpl.
  - by rewrite Nat.add_0_r.
  - rewrite IH. f_equal. f_equal. lia.
Qed.

Lemma unframe_frame (x r : bytes) : unframe (frame x ++ r) = Some (x, r).
Proof.
  unfold unframe, frame. rewrite <- app_assoc. simpl.
  rewrite skip_ones_replicate. simpl.
  rewrite decide_True by (rewrite length_app; lia).
  by rewrite take_app_length, drop_app_length.
Qed.

Lemma payload_seal (key n p : bytes) : payload (seal key n p) = Some (key, n, p).
Proof.
  unfold payload, seal. rewrite unframe_frame. simpl.
  by rewrite unframe_frame.
Qed.

Lemma open_seal (key n p : bytes) : open key n (seal key n p) = Some p.
Proof.
  unfold open. rewrite payload_seal. simpl. by rewrite decide_True.
Qed.

Lemma open_unique (key n key' n' c p p' : bytes) :
  open key n c = Some p -> open key' n' c = Some p' -> p = p'.
Proof.
  unfold open. destruct (payload c) as [[[k0 n0] p0]|]; simpl; [|done].
  repeat case_decide; congruence.
Qed.

Lemma derive_fresh (secret s : bytes) :
  is_Some (derive secret (mkKdfParams "toy" s 1)).
Proof. by eexists. Qed.

Lemma parse_item_bytes (i : VaultItem) (r : bytes) :
  parse_item (item_bytes i ++ r) = Some (i, r).
Proof.
  unfold parse_item, item_bytes. rewrite <- !app_assoc.
  rewrite unframe_frame; simpl. rewrite unframe_frame; simpl.
  rewrite unframe_frame; simpl. rewrite unframe_frame; simpl.
  unfold bytes_of_string. rewrite !string_of_list_byte_of_string.
  by destruct i.
Qed.

Lemma parse_items_concat (l : list VaultItem) :
  parse_items (length l) (concat (map item_bytes l)) = Some l.
Proof.
  induction l as [|i l IH]; simpl; [done|].
  rewrite parse_item_bytes. simpl. by rewrite IH.
Qed.

Lemma deserialize_serialize (l : list VaultItem) : deserialize (serialize l) = Some l.
Proof.
  unfold deserialize, serialize. rewrite skip_ones_replicate. simpl.
  apply parse_items_concat.
Qed.

Lemma random_length (d n : nat) : length (random d n) = n.
Proof. apply length_replicate. Qed.

Definition kdf : KDF := Build_KDF "toy" 1 derive derive_fresh.
Definition aead : AEAD := Build_AEAD seal open open_seal open_unique.
Definition codec : Codec := Build_Codec serialize deserialize deserialize_serialize.
Definition csprng : CSPRNG := Build_CSPRNG random random_length.

(** The engine over the toy instances, with an empty healthy store. *)
Definition service : VaultService.t Engine := @Engine.service kdf aead codec csprng.

Definition fresh : Engine := mkEngine (mkStore None false) NoSession 0.

End Toy.

(** ** A session of the application on the toy engine

    The scenario of the specification's section 8, driven through the
    handlers of [src/App.tsx]. *)
Module Scenario.

Import App Engine.

Definition master : string := "Sup3r$ecret!".

Definition recovery : string := "020202020202020202020202020202020202020202020202".

Definition example : VaultItem := mkVaultItem "1" "Example" "a@b.com" "x".

(** Set up a vault, dismiss the recovery key, add one item, lock. *)
Definition locked : World Engine :=
  foldl (step Toy.service) (mount Toy.service Toy.fresh)
    [Setup master; CloseRecovery; Add "1" "Example" "a@b.com" "x"; Lock].

Definition unlocked : World Engine := step Toy.service locked (Unlock master).

Definition recovered : World Engine := step Toy.service locked (Recover recovery).

(** The same world over a store that rejects writes. *)
Definition on_faulty_store (w : World Engine) : World Engine :=
  behind (set_faulty true (vault w)) w.

(** The same world after the password-wrapped key on disk lost its
    ciphertext. *)
Definition damage (r : VaultRecord) : VaultRecord :=
  mkVaultRecord (version r) (kdf_params r)
    (mkWrapped (nonce (wrapped_vek_by_password r)) [])
    (recovery_kdf_params r) (wrapped_vek_by_recovery r)
    (items_nonce r) (items_ciphertext r).

Definition on_damaged_record (w : World Engine) : World Engine :=
  let e := vault w in
  behind
    (mkEngine (mkStore (damage <$> content (store e)) (faulty (store e))) (session e) (draws e))
    w.

End Scenario.

(** * Properties of the application *)
Module AppSpec.

Import App.

(** The states in which the component holds decrypted items. *)
Definition holds_plaintext (s : AppState) : bool :=
  match s with
  | UNLOCKED | RECOVERY_SUCCESS => true
  | LOADING | SETUP | LOCKED => false
  end.

(** The component state with another error message, as [setError] leaves it. *)
Definition with_error (u : UI) (e : option string) : UI :=
  mkUI (appState u) (items u) (recoveryKey u) e (showPassword u).

Definition invalid_master_password : string := "Invalid master password.".
Definition invalid_recovery_key : string := "Invalid recovery key.".
Definition failed_to_update : string :=
  "Failed to update master password. Hardware key error.".

(** Unfolds a handler down to the world it returns. *)
Ltac run_handler :=
  unfold events_of, step, mount, initial, dispatch,
    handleLock, handleVisibilityChange, checkState, handleSetup, handleUnlock,
    handleRecover, handlePasswordReset, handleAdd, handleDelete, toggleVisibility,
    try_catch, throw, await, yieldToUI, readAppState, readItems,
    setAppState, setItems, setRecoveryKey, setError, setShowPassword, update, log,
    mbind, mret, Handler_bind, Handler_ret;
  cbn [ui vault trace appState items recoveryKey error showPassword fst snd].

Lemma filter_all {A : Type} (P : A -> Prop) `{forall x, Decision (P x)} (l : list A) :
  Forall P l -> filter P l = l.
Proof.
  induction 1 as [|x l Hx Hl IH]; [done|].
  by rewrite filter_cons_True, IH.
Qed.

Section WithService.

Context {V : Type} (svc : VaultService.t V).

(** [handleAdd] and [handleDelete] both end in [save updated]: the items
    are set first, the service is called second, and the handler settles
    as the call does. *)
Definition save (updated : list VaultItem) (w : World V) : World V * Promise unit :=
  (mkWorld (mkUI (appState (ui w)) updated (recoveryKey (ui w)) (error (ui w))
              (showPassword (ui w)))
     (VaultService.saveVault svc updated (vault w)).1
     (trace w ++ [SetItems updated; Call (ReqSaveVault updated)]),
   (VaultService.saveVault svc updated (vault w)).2).

(** *** What each handler returns *)

Lemma handleLock_eq (w : World V) :
  handleLock w =
    (mkWorld (mkUI LOCKED [] (recoveryKey (ui w)) None (showPassword (ui w))) (vault w)
       (trace w ++ [SetItems []; SetAppState LOCKED; SetError None]),
     Fulfilled tt).
Proof. run_handler. by rewrite <- !app_assoc. Qed.

Lemma handleUnlock_rejected (w : World V) (pwd : string) (v' : V) (e : VaultError) :
  VaultService.unlockVault svc pwd (vault w) = (v', Rejected e) ->
  handleUnlock svc pwd w =
    (mkWorld (with_error (ui w) (Some invalid_master_password)) v'
       (trace w ++ [SetError None; YieldToUI; Call (ReqUnlockVault pwd);
                    SetError (Some invalid_master_password)]),
     Fulfilled tt).
Proof.
  intros Hcall. run_handler. rewrite Hcall. cbn.
  by rewrite <- !app_assoc.
Qed.

Lemma handleUnlock_fulfilled (w : World V) (pwd : string) (v' : V) (l : list VaultItem) :
  VaultService.unlockVault svc pwd (vault w) = (v', Fulfilled l) ->
  handleUnlock svc pwd w =
    (mkWorld (mkUI UNLOCKED l (recoveryKey (ui w)) None (showPassword (ui w))) v'
       (trace w ++ [SetError None; YieldToUI; Call (ReqUnlockVault pwd);
                    SetItems l; SetAppState UNLOCKED]),
     Fulfilled tt).
Proof.
  intros Hcall. run_handler. rewrite Hcall. cbn.
  by rewrite <- !app_assoc.
Qed.

Lemma handleRecover_rejected (w : World V) (rKey : string) (v' : V) (e : VaultError) :
  VaultService.recoverVault svc rKey (vault w) = (v', Rejected e) ->
  handleRecover svc rKey w =
    (mkWorld (with_error (ui w) (Some invalid_recovery_key)) v'
       (trace w ++ [SetError None; YieldToUI; Call (ReqRecoverVault rKey);
                    SetError (Some invalid_recovery_key)]),
     Fulfilled tt).
Proof.
  intros Hcall. run_handler. rewrite Hcall. cbn.
  by rewrite <- !app_assoc.
Qed.

Lemma handleRecover_fulfilled (w : World V) (rKey : string) (v' : V) (l : list VaultItem) :
  VaultService.recoverVault svc rKey (vault w) = (v', Fulfilled l) ->
  handleRecover svc rKey w =
    (mkWorld (mkUI RECOVERY_SUCCESS l (recoveryKey (ui w)) None (showPassword (ui w))) v'
       (trace w ++ [SetError None; YieldToUI; Call (ReqRecoverVault rKey);
                    SetItems l; SetAppState RECOVERY_SUCCESS]),
     Fulfilled tt).
Proof.
  intros Hcall. run_handler. rewrite Hcall. cbn.
  by rewrite <- !app_assoc.
Qed.

Lemma handlePasswordReset_rejected (w : World V) (newPwd : string) (v' : V) (e : VaultError) :
  VaultService.resetMasterPassword svc newPwd (vault w) = (v', Rejected e) ->
  handlePasswordReset svc newPwd w =
    (mkWorld (with_error (ui w) (Some failed_to_update)) v'
       (trace w ++ [SetError None; YieldToUI; Call (ReqResetMasterPassword newPwd);
                    SetError (Some failed_to_update)]),
     Rejected e).
Proof.
  intros Hcall. run_handler. rewrite Hcall. cbn.
  by rewrite <- !app_assoc.
Qed.

Lemma handlePasswordReset_fulfilled (w : World V) (newPwd : string) (v' : V) :
  VaultService.resetMasterPassword svc newPwd (vault w) = (v', Fulfilled tt) ->
  handlePasswordReset svc newPwd w =
    (mkWorld (mkUI UNLOCKED (items (ui w)) (recoveryKey (ui w)) None (showPassword (ui w))) v'
       (trace w ++ [SetError None; YieldToUI; Call (ReqResetMasterPassword newPwd);
                    SetAppState UNLOCKED]),
     Fulfilled tt).
Proof.
  intros Hcall. run_handler. rewrite Hcall. cbn.
  by rewrite <- !app_assoc.
Qed.

Lemma handleSetup_rejected (w : World V) (pwd : string) (v' : V) (e : VaultError) :
  VaultService.initializeVault svc pwd (vault w) = (v', Rejected e) ->
  handleSetup svc pwd w =
    (mkWorld (with_error (ui w) (Some "Failed to initialize vault.")) v'
       (trace w ++ [SetError None; YieldToUI; Call (ReqInitializeVault pwd);
                    SetError (Some "Failed to initialize vault.")]),
     Fulfilled tt).
Proof.
  intros Hcall. run_handler. rewrite Hcall. cbn.
  by rewrite <- !app_assoc.
Qed.

Lemma handleSetup_fulfilled (w : World V) (pwd : string) (v' : V) (rKey : string) :
  VaultService.initializeVault svc pwd (vault w) = (v', Fulfilled rKey) ->
  handleSetup svc pwd w =
    (mkWorld (mkUI UNLOCKED [] (Some rKey) None (showPassword (ui w))) v'
       (trace w ++ [SetError None; YieldToUI; Call (ReqInitializeVault pwd);
                    SetRecoveryKey (Some rKey); SetItems []; SetAppState UNLOCKED]),
     Fulfilled tt).
Proof.
  intros Hcall. run_handler. rewrite Hcall. cbn.
  by rewrite <- !app_assoc.
Qed.

Lemma handleAdd_eq (w : World V) (uuid title user pass : string) :
  handleAdd svc uuid title user pass w =
    save (items (ui w) ++ [mkVaultItem uuid title user pass]) w.
Proof.
  run_handler. unfold save.
  destruct (VaultService.saveVault svc _ (vault w)) as [v' p]. cbn.
  by rewrite <- !app_assoc.
Qed.

Lemma handleDelete_eq (w : World V) (id0 : string) :
  handleDelete svc id0 w = save (filter (fun i => id i ≠ id0) (items (ui w))) w.
Proof.
  run_handler. unfold save.
  destruct (VaultService.saveVault svc _ (vault w)) as [v' p]. cbn.
  by rewrite <- !app_assoc.
Qed.

Lemma handleVisibilityChange_eq (w : World V) (v : VisibilityState) :
  handleVisibilityChange v w =
    if bool_decide (v = hidden) && bool_decide (appState (ui w) = UNLOCKED)
    then handleLock w else (w, Fulfilled tt).
Proof.
  unfold handleVisibilityChange, readAppState, mbind, Handler_bind.
  by destruct (bool_decide (v = hidden) && bool_decide (appState (ui w) = UNLOCKED)).
Qed.

Lemma events_of_app {A : Type} (h : Handler V A) (w w' : World V) (p : Promise A)
    (evs : list Event) :
  h w = (w', p) -> trace w' = trace w ++ evs -> events_of h w = evs.
Proof.
  intros Hrun Htrace. unfold events_of. rewrite Hrun. cbn.
  by rewrite Htrace, drop_app_length.
Qed.

(** *** The items are empty unless the state is one that shows them *)

Lemma mount_holds_no_plaintext (v : V) :
  holds_plaintext (appState (ui (mount svc v))) = false ∧ items (ui (mount svc v)) = [].
Proof.
  run_handler. destruct (VaultService.hasExistingVault svc v) as [v' [[]|e]]; by cbn.
Qed.

Lemma reachable_items_empty (w : World V) :
  reachable svc w -> holds_plaintext (appState (ui w)) = false -> items (ui w) = [].
Proof.
  induction 1 as [v|w a Hw IH|w v Hw IH]; [| |exact IH].
  - intros _. apply mount_holds_no_plaintext.
  - unfold step. destruct (offered (appState (ui w)) a) eqn:Hoff; [|done].
    destruct a; cbn [dispatch].
    + rewrite handleVisibilityChange_eq.
      destruct (_ && _); [by rewrite handleLock_eq|done].
    + destruct (VaultService.initializeVault svc pwd (vault w)) as [v' [k|e]] eqn:Hcall.
      * by rewrite (handleSetup_fulfilled _ _ _ _ Hcall).
      * rewrite (handleSetup_rejected _ _ _ _ Hcall). apply IH.
    + destruct (VaultService.unlockVault svc pwd (vault w)) as [v' [l|e]] eqn:Hcall.
      * by rewrite (handleUnlock_fulfilled _ _ _ _ Hcall).
      * rewrite (handleUnlock_rejected _ _ _ _ Hcall). apply IH.
    + destruct (VaultService.recoverVault svc rKey (vault w)) as [v' [l|e]] eqn:Hcall.
      * by rewrite (handleRecover_fulfilled _ _ _ _ Hcall).
      * rewrite (handleRecover_rejected _ _ _ _ Hcall). apply IH.
    + apply IH.
    + destruct (VaultService.resetMasterPassword svc newPwd (vault w)) as [v' [[]|e]] eqn:Hcall.
      * by rewrite (handlePasswordReset_fulfilled _ _ _ Hcall).
      * rewrite (handlePasswordReset_rejected _ _ _ _ Hcall). cbn.
        destruct (appState (ui w)); done.
    + rewrite handleAdd_eq. cbn. destruct (appState (ui w)); done.
    + rewrite handleDelete_eq. cbn. destruct (appState (ui w)); done.
    + by rewrite handleLock_eq.
    + cbn. destruct (appState (ui w)); done.
    + apply IH.
Qed.

(** *** Failed unlock and recovery *)

(** C3.  A failed unlock or recovery attempt has no partial effect.  In
    any reachable world whose state is [LOCKED] (whatever happened to the
    record behind the service), when [unlockVault] (respectively
    [recoverVault]) rejects, for whatever reason, the handler leaves the
    state [LOCKED] and the items as they were, namely empty; the
    component changes in its error message only, and the handler calls
    neither [setItems] nor [setAppState]. *)
Theorem failed_unlock_or_recover_stays_locked (w : World V) :
  reachable svc w ->
  appState (ui w) = LOCKED ->
  (forall (pwd : string) (v' : V) (e : VaultError),
      VaultService.unlockVault svc pwd (vault w) = (v', Rejected e) ->
      appState (ui (handleUnlock svc pwd w).1) = LOCKED ∧
      items (ui (handleUnlock svc pwd w).1) = [] ∧
      items (ui w) = [] ∧
      ui (handleUnlock svc pwd w).1 = with_error (ui w) (Some invalid_master_password) ∧
      events_of (handleUnlock svc pwd) w =
        [SetError None; YieldToUI; Call (ReqUnlockVault pwd);
         SetError (Some invalid_master_password)]) ∧
  (forall (rKey : string) (v' : V) (e : VaultError),
      VaultService.recoverVault svc rKey (vault w) = (v', Rejected e) ->
      appState (ui (handleRecover svc rKey w).1) = LOCKED ∧
      items (ui (handleRecover svc rKey w).1) = [] ∧
      items (ui w) = [] ∧
      ui (handleRecover svc rKey w).1 = with_error (ui w) (Some invalid_recovery_key) ∧
      events_of (handleRecover svc rKey) w =
        [SetError None; YieldToUI; Call (ReqRecoverVault rKey);
         SetError (Some invalid_recovery_key)]).
Proof.
  intros Hreach Hlocked.
  assert (items (ui w) = []) as Hempty.
  { apply reachable_items_empty; [done|]. by rewrite Hlocked. }
  split.
  - intros pwd v' e Hcall.
    pose proof (handleUnlock_rejected w pwd v' e Hcall) as Hrun.
    rewrite (events_of_app _ _ _ _ _ Hrun eq_refl), Hrun. cbn.
    by rewrite Hlocked, Hempty.
  - intros rKey v' e Hcall.
    pose proof (handleRecover_rejected w rKey v' e Hcall) as Hrun.
    rewrite (events_of_app _ _ _ _ _ Hrun eq_refl), Hrun. cbn.
    by rewrite Hlocked, Hempty.
Qed.

(** C5.  Every failed unlock looks the same from outside.  Take two runs
    of [handleUnlock] that start from the same component state, with any
    two passwords and any two states of the service, in which
    [unlockVault] rejects for any two reasons [e1] and [e2].  Both leave
    the same component state, showing the one message "Invalid master
    password.", and both handlers settle in the same way. *)
Theorem unlock_failures_look_alike
    (w1 w2 : World V) (pwd1 pwd2 : string) (v1 v2 : V) (e1 e2 : VaultError) :
  ui w1 = ui w2 ->
  VaultService.unlockVault svc pwd1 (vault w1) = (v1, Rejected e1) ->
  VaultService.unlockVault svc pwd2 (vault w2) = (v2, Rejected e2) ->
  ui (handleUnlock svc pwd1 w1).1 = ui (handleUnlock svc pwd2 w2).1 ∧
  (handleUnlock svc pwd1 w1).2 = (handleUnlock svc pwd2 w2).2 ∧
  error (ui (handleUnlock svc pwd1 w1).1) = Some invalid_master_password ∧
  filter (fun ev => ev ≠ Call (ReqUnlockVault pwd1)) (events_of (handleUnlock svc pwd1) w1) =
    filter (fun ev => ev ≠ Call (ReqUnlockVault pwd2)) (events_of (handleUnlock svc pwd2) w2).
Proof.
  intros Hui Hcall1 Hcall2.
  pose proof (handleUnlock_rejected w1 pwd1 v1 e1 Hcall1) as Hrun1.
  pose proof (handleUnlock_rejected w2 pwd2 v2 e2 Hcall2) as Hrun2.
  rewrite (events_of_app _ _ _ _ _ Hrun1 eq_refl), (events_of_app _ _ _ _ _ Hrun2 eq_refl).
  rewrite Hrun1, Hrun2. cbn [fst snd ui error with_error].
  rewrite Hui. repeat split.
  rewrite !filter_cons, !filter_nil.
  repeat case_decide; congruence.
Qed.

(** *** Locking *)

(** C4, as the code has it.  When the page becomes hidden while the state
    is [UNLOCKED], [handleVisibilityChange] runs [handleLock]: the items
    are set to the empty list and the state to [LOCKED].  In every other
    state, [RECOVERY_SUCCESS] with its decrypted items included, and for
    every change to [visible], the handler does nothing. *)
Theorem visibility_loss_locks_when_unlocked (w : World V) :
  (appState (ui w) = UNLOCKED ->
     handleVisibilityChange hidden w = handleLock w ∧
     items (ui (handleVisibilityChange hidden w).1) = [] ∧
     appState (ui (handleVisibilityChange hidden w).1) = LOCKED ∧
     events_of (handleVisibilityChange hidden) w =
       [SetItems []; SetAppState LOCKED; SetError None]) ∧
  (appState (ui w) ≠ UNLOCKED ->
     handleVisibilityChange hidden w = (w, Fulfilled tt)) ∧
  handleVisibilityChange visible w = (w, Fulfilled tt).
Proof.
  split; [|split].
  - intros Hstate.
    assert (handleVisibilityChange hidden w = handleLock w) as Hrun.
    { by rewrite handleVisibilityChange_eq, Hstate. }
    rewrite (events_of_app _ _ _ _ _ Hrun (f_equal trace (f_equal fst (handleLock_eq w)))).
    by rewrite Hrun, handleLock_eq.
  - intros Hstate.
    by rewrite handleVisibilityChange_eq, (bool_decide_eq_false_2 _ Hstate), andb_false_r.
  - by rewrite handleVisibilityChange_eq.
Qed.

(** C7.  [handleLock] is idempotent.  From any world it settles without
    rejecting and leaves the state [LOCKED] and the items empty; run a
    second time it does so again and leaves the component exactly as the
    first run left it.  It never touches the service. *)
Theorem handleLock_idempotent (w : World V) :
  (handleLock w).2 = Fulfilled tt ∧
  appState (ui (handleLock w).1) = LOCKED ∧
  items (ui (handleLock w).1) = [] ∧
  (handleLock (handleLock w).1).2 = Fulfilled tt ∧
  appState (ui (handleLock (handleLock w).1).1) = LOCKED ∧
  items (ui (handleLock (handleLock w).1).1) = [] ∧
  ui (handleLock (handleLock w).1).1 = ui (handleLock w).1 ∧
  vault (handleLock (handleLock w).1).1 = vault w.
Proof. repeat (rewrite handleLock_eq; cbn). done. Qed.

(** *** Recovery and password reset *)

(** C6.  From [LOCKED], a successful [recoverVault] moves the component
    to [RECOVERY_SUCCESS] with the decrypted items in memory, where the
    only handler a screen offers is [handlePasswordReset] (the
    visibility listener aside).  From [RECOVERY_SUCCESS], a successful
    [resetMasterPassword] moves it to [UNLOCKED] with the same items; a
    rejected one leaves it in [RECOVERY_SUCCESS] with the same items,
    shows an error and rejects with the same error. *)
Theorem recover_then_reset (w : World V) :
  (appState (ui w) = LOCKED ->
   forall (rKey : string) (v' : V) (l : list VaultItem),
     VaultService.recoverVault svc rKey (vault w) = (v', Fulfilled l) ->
     appState (ui (step svc w (Recover rKey))) = RECOVERY_SUCCESS ∧
     items (ui (step svc w (Recover rKey))) = l ∧
     (forall a : Action,
         offered (appState (ui (step svc w (Recover rKey)))) a = true ->
         (exists newPwd, a = PasswordReset newPwd) ∨ (exists v, a = VisibilityChange v))) ∧
  (appState (ui w) = RECOVERY_SUCCESS ->
   (forall (newPwd : string) (v' : V),
     VaultService.resetMasterPassword svc newPwd (vault w) = (v', Fulfilled tt) ->
     appState (ui (step svc w (PasswordReset newPwd))) = UNLOCKED ∧
     items (ui (step svc w (PasswordReset newPwd))) = items (ui w) ∧
     (handlePasswordReset svc newPwd w).2 = Fulfilled tt) ∧
   (forall (newPwd : string) (v' : V) (e : VaultError),
     VaultService.resetMasterPassword svc newPwd (vault w) = (v', Rejected e) ->
     appState (ui (step svc w (PasswordReset newPwd))) = RECOVERY_SUCCESS ∧
     items (ui (step svc w (PasswordReset newPwd))) = items (ui w) ∧
     error (ui (step svc w (PasswordReset newPwd))) = Some failed_to_update ∧
     (handlePasswordReset svc newPwd w).2 = Rejected e)).
Proof.
  split.
  - intros Hstate rKey v' l Hcall. unfold step. rewrite Hstate. cbn [offered dispatch].
    rewrite (handleRecover_fulfilled w rKey v' l Hcall). cbn.
    repeat split. intros a Ha. destruct a; try discriminate; eauto.
  - intros Hstate. split.
    + intros newPwd v' Hcall. unfold step. rewrite Hstate. cbn [offered dispatch].
      by rewrite (handlePasswordReset_fulfilled w newPwd v' Hcall).
    + intros newPwd v' e Hcall. unfold step. rewrite Hstate. cbn [offered dispatch].
      by rewrite (handlePasswordReset_rejected w newPwd v' e Hcall).
Qed.

(** *** Start-up *)

(** C8.  Before the mount effect has run the component is in [LOADING],
    where no action has any effect.  The effect asks [hasExistingVault]
    once and does nothing else before it sets the state: when the answer
    is [true] the state becomes [LOCKED], where unlocking is offered and
    setting up is not; when it is [false] the state becomes [SETUP],
    where setting up is offered and unlocking is not. *)
Theorem checkState_chooses_the_first_screen (v v' : V) (b : bool) :
  VaultService.hasExistingVault svc v = (v', Fulfilled b) ->
  (forall a : Action, step svc (initial v) a = initial v) ∧
  trace (mount svc v) =
    [Call ReqHasExistingVault; SetAppState (if b then LOCKED else SETUP)] ∧
  appState (ui (mount svc v)) = (if b then LOCKED else SETUP) ∧
  items (ui (mount svc v)) = [] ∧
  vault (mount svc v) = v' ∧
  (forall pwd : string, offered (appState (ui (mount svc v))) (Unlock pwd) = b) ∧
  (forall pwd : string, offered (appState (ui (mount svc v))) (Setup pwd) = negb b).
Proof.
  intros Hcall. split.
  - intros a. unfold step. destruct a; try done. cbn [offered dispatch initial ui appState].
    by rewrite handleVisibilityChange_eq, andb_false_r.
  - run_handler. rewrite Hcall. cbn. by destruct b.
Qed.

(** *** Adding and deleting items *)

(** C10.  [handleAdd] and [handleDelete] set the displayed items before
    they call [saveVault], and settle as [saveVault] does: when it
    rejects, the handler rejects with the same error, the displayed items
    stay updated and no error message is set, whatever the service kept.
    [handleAdd] appends one item, built from the identifier that
    [crypto.randomUUID] returned, after the existing items; when that
    identifier is not in use, identifiers stay distinct.  [handleDelete]
    keeps exactly the items whose [id] differs from the given one, in
    their order. *)
Theorem add_and_delete_update_before_saving
    (w : World V) (uuid title user pass id0 : string) :
  let added := items (ui w) ++ [mkVaultItem uuid title user pass] in
  let kept := filter (fun i => id i ≠ id0) (items (ui w)) in
  (items (ui (handleAdd svc uuid title user pass w).1) = added ∧
   events_of (handleAdd svc uuid title user pass) w =
     [SetItems added; Call (ReqSaveVault added)] ∧
   (handleAdd svc uuid title user pass w).2 = (VaultService.saveVault svc added (vault w)).2 ∧
   error (ui (handleAdd svc uuid title user pass w).1) = error (ui w) ∧
   appState (ui (handleAdd svc uuid title user pass w).1) = appState (ui w)) ∧
  (items (ui (handleDelete svc id0 w).1) = kept ∧
   events_of (handleDelete svc id0) w = [SetItems kept; Call (ReqSaveVault kept)] ∧
   (handleDelete svc id0 w).2 = (VaultService.saveVault svc kept (vault w)).2 ∧
   error (ui (handleDelete svc id0 w).1) = error (ui w) ∧
   appState (ui (handleDelete svc id0 w).1) = appState (ui w)) ∧
  (length added = S (length (items (ui w))) ∧
   take (length (items (ui w))) added = items (ui w) ∧
   (uuid ∉ id <$> items (ui w) -> NoDup (id <$> items (ui w)) -> NoDup (id <$> added))) ∧
  ((forall i : VaultItem, i ∈ kept ↔ i ∈ items (ui w) ∧ id i ≠ id0) ∧
   sublist kept (items (ui w)) ∧
   (id0 ∉ id <$> items (ui w) -> kept = items (ui w))).
Proof.
  intros added kept. split; [|split; [|split]].
  - rewrite (events_of_app _ _ _ _ _ (handleAdd_eq w uuid title user pass) eq_refl).
    by rewrite handleAdd_eq.
  - rewrite (events_of_app _ _ _ _ _ (handleDelete_eq w id0) eq_refl).
    by rewrite handleDelete_eq.
  - split; [|split].
    + unfold added. rewrite length_app. cbn. lia.
    + unfold added. by rewrite take_app_length.
    + intros Hfresh Hnodup. unfold added. rewrite fmap_app. cbn.
      apply NoDup_app. split; [done|]. split; [|apply NoDup_singleton].
      intros x Hx Hx'. apply list_elem_of_singleton in Hx'. by subst.
  - split; [|split].
    + intros i. unfold kept. rewrite list_elem_of_filter. tauto.
    + apply sublist_filter.
    + intros Hid. apply filter_all. apply Forall_forall. intros i Hi Heq.
      apply Hid. apply list_elem_of_fmap. eauto.
Qed.

End WithService.

(** *** The theorems on the scenario *)

Lemma locked_reachable : reachable Toy.service Scenario.locked.
Proof.
  unfold Scenario.locked. cbn [foldl].
  repeat apply reachable_step. apply reachable_mount.
Qed.

Lemma recovered_reachable : reachable Toy.service Scenario.recovered.
Proof. apply reachable_step, locked_reachable. Qed.

(** C3 on the scenario: a wrong password and a wrong recovery key, tried
    on the locked vault, and the right password tried on a damaged
    record. *)
Lemma failed_unlock_or_recover_stays_locked_witness :
  (appState (ui (handleUnlock Toy.service Scenario.master
                   (Scenario.on_damaged_record Scenario.locked)).1) = LOCKED ∧
   items (ui (handleUnlock Toy.service Scenario.master
                (Scenario.on_damaged_record Scenario.locked)).1) = []) ∧
  (appState (ui (handleUnlock Toy.service "wrong" Scenario.locked).1) = LOCKED ∧
   items (ui (handleUnlock Toy.service "wrong" Scenario.locked).1) = [] ∧
   items (ui Scenario.locked) = [] ∧
   ui (handleUnlock Toy.service "wrong" Scenario.locked).1 =
     with_error (ui Scenario.locked) (Some invalid_master_password) ∧
   events_of (handleUnlock Toy.service "wrong") Scenario.locked =
     [SetError None; YieldToUI; Call (ReqUnlockVault "wrong");
      SetError (Some invalid_master_password)]) ∧
  (appState (ui (handleRecover Toy.service "00" Scenario.locked).1) = LOCKED ∧
   items (ui (handleRecover Toy.service "00" Scenario.locked).1) = [] ∧
   items (ui Scenario.locked) = [] ∧
   ui (handleRecover Toy.service "00" Scenario.locked).1 =
     with_error (ui Scenario.locked) (Some invalid_recovery_key) ∧
   events_of (handleRecover Toy.service "00") Scenario.locked =
     [SetError None; YieldToUI; Call (ReqRecoverVault "00");
      SetError (Some invalid_recovery_key)]).
Proof.
  assert (appState (ui Scenario.locked) = LOCKED) as Hlocked by (vm_compute; reflexivity).
  destruct (failed_unlock_or_recover_stays_locked Toy.service Scenario.locked
              locked_reachable Hlocked) as [Hunlock Hrecover].
  assert (appState (ui (Scenario.on_damaged_record Scenario.locked)) = LOCKED)
    as Hlocked' by (vm_compute; reflexivity).
  destruct (failed_unlock_or_recover_stays_locked Toy.service
              (Scenario.on_damaged_record Scenario.locked)
              (reachable_behind Toy.service Scenario.locked _ locked_reachable) Hlocked')
    as [Hdamaged _].
  split; [|split].
  - destruct (Hdamaged Scenario.master
                (vault (Scenario.on_damaged_record Scenario.locked)) AuthFailure)
      as (Hstate & Hitems & _); [vm_compute; reflexivity|].
    by split.
  - apply (Hunlock "wrong" (vault Scenario.locked) AuthFailure). vm_compute. reflexivity.
  - apply (Hrecover "00" (vault Scenario.locked) AuthFailure). vm_compute. reflexivity.
Defined.

(** C5 on the scenario: a wrong password on the intact record, and the
    right password on a record whose wrapped key is damaged. *)
Lemma unlock_failures_look_alike_witness :
  ui (handleUnlock Toy.service "wrong" Scenario.locked).1 =
    ui (handleUnlock Toy.service Scenario.master
          (Scenario.on_damaged_record Scenario.locked)).1 ∧
  (handleUnlock Toy.service "wrong" Scenario.locked).2 =
    (handleUnlock Toy.service Scenario.master
       (Scenario.on_damaged_record Scenario.locked)).2 ∧
  error (ui (handleUnlock Toy.service "wrong" Scenario.locked).1) =
    Some invalid_master_password ∧
  filter (fun ev => ev ≠ Call (ReqUnlockVault "wrong"))
    (events_of (handleUnlock Toy.service "wrong") Scenario.locked) =
  filter (fun ev => ev ≠ Call (ReqUnlockVault Scenario.master))
    (events_of (handleUnlock Toy.service Scenario.master)
       (Scenario.on_damaged_record Scenario.locked)).
Proof.
  apply (unlock_failures_look_alike Toy.service
           Scenario.locked (Scenario.on_damaged_record Scenario.locked)
           "wrong" Scenario.master
           (vault Scenario.locked) (vault (Scenario.on_damaged_record Scenario.locked))
           AuthFailure AuthFailure).
  - vm_compute. reflexivity.
  - vm_compute. reflexivity.
  - vm_compute. reflexivity.
Defined.

(** C4 as stated fails: in the recovered session of the scenario the
    component holds a decrypted item in state [RECOVERY_SUCCESS]; the page
    becomes hidden; the item is still there and the state is unchanged. *)
Lemma hidden_in_recovery_keeps_items :
  appState (ui Scenario.recovered) = RECOVERY_SUCCESS ∧
  items (ui Scenario.recovered) = [Scenario.example] ∧
  offered (appState (ui Scenario.recovered)) (VisibilityChange hidden) = true ∧
  items (ui (step Toy.service Scenario.recovered (VisibilityChange hidden))) =
    [Scenario.example] ∧
  appState (ui (step Toy.service Scenario.recovered (VisibilityChange hidden))) =
    RECOVERY_SUCCESS ∧
  events_of (handleVisibilityChange hidden) Scenario.recovered = [].
Proof. vm_compute. repeat split. Qed.

(** C4 as the code has it, on the scenario: hidden while unlocked, and
    hidden while recovered. *)
Lemma visibility_loss_locks_when_unlocked_witness :
  (handleVisibilityChange hidden Scenario.unlocked = handleLock Scenario.unlocked ∧
   items (ui (handleVisibilityChange hidden Scenario.unlocked).1) = [] ∧
   appState (ui (handleVisibilityChange hidden Scenario.unlocked).1) = LOCKED ∧
   events_of (handleVisibilityChange hidden) Scenario.unlocked =
     [SetItems []; SetAppState LOCKED; SetError None]) ∧
  handleVisibilityChange hidden Scenario.recovered = (Scenario.recovered, Fulfilled tt).
Proof.
  split.
  - destruct (visibility_loss_locks_when_unlocked Scenario.unlocked) as (Hlock & _ & _).
    apply Hlock. vm_compute. reflexivity.
  - destruct (visibility_loss_locks_when_unlocked Scenario.recovered) as (_ & Hkeep & _).
    apply Hkeep. vm_compute. discriminate.
Defined.

(** C6 on the scenario: recovery with the recovery key, then a reset
    that succeeds, and a reset against a store that rejects the write. *)
Lemma recover_then_reset_witness :
  (appState (ui (step Toy.service Scenario.locked (Recover Scenario.recovery))) =
     RECOVERY_SUCCESS ∧
   items (ui (step Toy.service Scenario.locked (Recover Scenario.recovery))) =
     [Scenario.example]) ∧
  (appState (ui (step Toy.service Scenario.recovered (PasswordReset "NewPass9!"))) =
     UNLOCKED ∧
   items (ui (step Toy.service Scenario.recovered (PasswordReset "NewPass9!"))) =
     items (ui Scenario.recovered)) ∧
  (appState (ui (step Toy.service (Scenario.on_faulty_store Scenario.recovered)
                   (PasswordReset "NewPass9!"))) = RECOVERY_SUCCESS ∧
   (handlePasswordReset Toy.service "NewPass9!"
      (Scenario.on_faulty_store Scenario.recovered)).2 = Rejected StorageFailure).
Proof.
  split; [|split].
  - destruct (recover_then_reset Toy.service Scenario.locked) as [Hrecover _].
    destruct (Hrecover ltac:(vm_compute; reflexivity) Scenario.recovery
                (vault Scenario.recovered) [Scenario.example]
                ltac:(vm_compute; reflexivity)) as (Hstate & Hitems & _).
    by split.
  - destruct (recover_then_reset Toy.service Scenario.recovered) as [_ Hreset].
    destruct (Hreset ltac:(vm_compute; reflexivity)) as [Hok _].
    destruct (Hok "NewPass9!"
                (vault (step Toy.service Scenario.recovered (PasswordReset "NewPass9!")))
                ltac:(vm_compute; reflexivity)) as (Hstate & Hitems & _).
    by split.
  - destruct (recover_then_reset Toy.service (Scenario.on_faulty_store Scenario.recovered))
      as [_ Hreset].
    destruct (Hreset ltac:(vm_compute; reflexivity)) as [_ Hfail].
    destruct (Hfail "NewPass9!"
                (vault (step Toy.service (Scenario.on_faulty_store Scenario.recovered)
                          (PasswordReset "NewPass9!")))
                StorageFailure ltac:(vm_compute; reflexivity)) as (Hstate & _ & _ & Hres).
    by split.
Defined.

(** C8 on the scenario: mounting over an empty store, and mounting over
    the store that the scenario left behind. *)
Lemma checkState_chooses_the_first_screen_witness :
  (trace (mount Toy.service Toy.fresh) = [Call ReqHasExistingVault; SetAppState SETUP] ∧
   appState (ui (mount Toy.service Toy.fresh)) = SETUP) ∧
  (trace (mount Toy.service (vault Scenario.locked)) =
     [Call ReqHasExistingVault; SetAppState LOCKED] ∧
   appState (ui (mount Toy.service (vault Scenario.locked))) = LOCKED).
Proof.
  split.
  - destruct (checkState_chooses_the_first_screen Toy.service Toy.fresh Toy.fresh false
                ltac:(vm_compute; reflexivity)) as (_ & Htrace & Hstate & _).
    by split.
  - destruct (checkState_chooses_the_first_screen Toy.service
                (vault Scenario.locked) (vault Scenario.locked) true
                ltac:(vm_compute; reflexivity)) as (_ & Htrace & Hstate & _).
    by split.
Defined.

(** C10 on the scenario: an item is added while the store rejects
    writes.  [saveVault] rejects, the handler rejects with it, the
    component shows two items and no error, and the record on disk still
    decrypts to the one item saved before. *)
Lemma add_and_delete_update_before_saving_witness :
  let w := Scenario.on_faulty_store Scenario.unlocked in
  let new := mkVaultItem "2" "Other" "c@d.com" "y" in
  (handleAdd Toy.service "2" "Other" "c@d.com" "y" w).2 = Rejected StorageFailure ∧
  items (ui (handleAdd Toy.service "2" "Other" "c@d.com" "y" w).1) =
    [Scenario.example; new] ∧
  error (ui (handleAdd Toy.service "2" "Other" "c@d.com" "y" w).1) = None ∧
  (VaultService.unlockVault Toy.service Scenario.master
     (vault (handleAdd Toy.service "2" "Other" "c@d.com" "y" w).1)).2 =
    Fulfilled [Scenario.example] ∧
  NoDup (id <$> [Scenario.example; new]) ∧
  items (ui (handleDelete Toy.service "1" w).1) = [].
Proof.
  intros w new.
  destruct (add_and_delete_update_before_saving Toy.service w "2" "Other" "c@d.com" "y" "1")
    as ((Hitems & _ & Hres & Herr & _) & (Hkept & _) & (_ & _ & Hnodup) & _).
  split; [rewrite Hres; vm_compute; reflexivity|].
  split; [rewrite Hitems; vm_compute; reflexivity|].
  split; [rewrite Herr; vm_compute; reflexivity|].
  split; [vm_compute; reflexivity|].
  split; [|rewrite Hkept; vm_compute; reflexivity].
  apply Hnodup.
  - vm_compute. intros Hin. apply list_elem_of_singleton in Hin. discriminate.
  - vm_compute. apply NoDup_singleton.
Defined.

End AppSpec.

(** * Properties of the modelled engine *)
Module EngineSpec.

Import Engine.

Section WithCrypto.

Context {kdf : KDF} {aead : AEAD} {codec : Codec} {rng : CSPRNG}.

(** [escrow e pwd secret]: the store of [e] holds a record whose two
    wrapped keys open, under the keys derived from [pwd] and from
    [secret], to one VEK; the items open under that VEK; and a session, if
    there is one, holds that VEK and those items. *)
Definition escrow (e : Engine) (pwd secret : string) : Prop :=
  exists (r : VaultRecord) (vek : bytes) (l : list VaultItem),
    content (store e) = Some r ∧
    unwrap_by_password pwd r = Some vek ∧
    unwrap_by_recovery secret r = Some vek ∧
    open_items vek r = Some l ∧
    match session e with
    | NoSession => True
    | Unlocked vek' l' | Recovered vek' l' => vek' = vek ∧ l' = l
    end.

(** Saving re-encrypts the items and leaves both wrapped keys alone. *)
Definition resealed (r : VaultRecord) (vek n : bytes) (l : list VaultItem) : VaultRecord :=
  mkVaultRecord (version r) (kdf_params r) (wrapped_vek_by_password r)
    (recovery_kdf_params r) (wrapped_vek_by_recovery r) n (seal vek n (serialize l)).

(** The engine and the master password after a sequence of operations. *)
Definition after (ops : list Op) (e : Engine) (pwd : string) : Engine * string :=
  foldl (fun s op => ((exec op s.1).1, password_after op s.1 s.2)) (e, pwd) ops.

(** *** The primitives *)

Lemma unwrap_wrap (vek key n : bytes) : unwrap key (wrap vek key n) = Some vek.
Proof. unfold unwrap, wrap. cbn. apply open_seal. Qed.

Lemma unwrap_unique (key key' : bytes) (w : Wrapped) (vek vek' : bytes) :
  unwrap key w = Some vek -> unwrap key' w = Some vek' -> vek = vek'.
Proof. unfold unwrap. apply open_unique. Qed.

Lemma unwrap_by_password_unique (pwd pwd' : string) (r : VaultRecord) (vek vek' : bytes) :
  unwrap_by_password pwd r = Some vek -> unwrap_by_password pwd' r = Some vek' -> vek = vek'.
Proof.
  unfold unwrap_by_password. intros H1 H2.
  destruct (derive (bytes_of_string pwd) _) as [k|]; [|done].
  destruct (derive (bytes_of_string pwd') _) as [k'|]; [|done].
  cbn in *. eapply unwrap_unique; eauto.
Qed.

Lemma unwrap_by_recovery_unique (s s' : string) (r : VaultRecord) (vek vek' : bytes) :
  unwrap_by_recovery s r = Some vek -> unwrap_by_recovery s' r = Some vek' -> vek = vek'.
Proof.
  unfold unwrap_by_recovery. intros H1 H2.
  destruct (derive (bytes_of_string s) _) as [k|]; [|done].
  destruct (derive (bytes_of_string s') _) as [k'|]; [|done].
  cbn in *. eapply unwrap_unique; eauto.
Qed.

Lemma open_items_seal (vek n : bytes) (l : list VaultItem) (r : VaultRecord) :
  items_nonce r = n -> items_ciphertext r = seal vek n (serialize l) ->
  open_items vek r = Some l.
Proof.
  intros Hn Hc. unfold open_items. rewrite Hn, Hc, open_seal. cbn.
  apply deserialize_serialize.
Qed.

(** *** Each operation *)

Lemma hex_length (b : bytes) : String.length (hex b) = (2 * length b)%nat.
Proof. induction b as [|x b IH]; cbn; [done|]. rewrite IH. lia. Qed.

(** The recovery secret that [initialize] returns has 48 characters. *)
Lemma initializeVault_secret_length (pwd secret : string) (e0 e : Engine) :
  initializeVault pwd e0 = (e, Fulfilled secret) -> String.length secret = 48%nat.
Proof.
  unfold initializeVault, write. intros Hinit.
  destruct (exists_ (store e0)); [done|].
  destruct (derive _ _); [|done]. destruct (derive _ _); [|done].
  destruct (faulty (store e0)); [done|].
  injection Hinit as _ <-. by rewrite hex_length, random_length.
Qed.

(** [lock] empties the memory of the engine, and is idempotent. *)
Lemma lock_idempotent (e : Engine) :
  held_items (lock e) = [] ∧ session (lock e) = NoSession ∧ lock (lock e) = lock e.
Proof. done. Qed.

(** [hasExistingVault] reports whether the store holds a record and
    changes nothing. *)
Lemma hasExistingVault_pure (e : Engine) :
  hasExistingVault e = (e, Fulfilled (bool_decide (is_Some (content (store e))))).
Proof. done. Qed.

Lemma initializeVault_fresh (pwd : string) (e0 : Engine) :
  content (store e0) = None ->
  faulty (store e0) = false ->
  exists (secret : string) (e : Engine),
    initializeVault pwd e0 = (e, Fulfilled secret) ∧
    session e = Unlocked (random (draws e0 + 3) key_length) [] ∧
    faulty (store e) = false ∧
    escrow e pwd secret.
Proof.
  intros Hnone Hhealthy. unfold initializeVault, exists_, write.
  rewrite Hnone, Hhealthy.
  rewrite bool_decide_eq_false_2 by (intros [? ?]; done).
  unfold fresh_params.
  destruct (derive_fresh (bytes_of_string pwd) (random (draws e0) salt_length))
    as [pdk Hpdk].
  destruct (derive_fresh
              (bytes_of_string (hex (random (draws e0 + 2) recovery_length)))
              (random (draws e0 + 1) salt_length)) as [rdk Hrdk].
  rewrite Hpdk, Hrdk. eexists _, _. split; [reflexivity|]. cbn.
  split; [done|]. split; [done|].
  eexists _, _, []. cbn. split; [reflexivity|].
  unfold unwrap_by_password, unwrap_by_recovery. cbn.
  rewrite Hpdk, Hrdk. cbn. rewrite !unwrap_wrap.
  repeat split. by eapply open_items_seal.
Qed.

Lemma unlockVault_escrow (e : Engine) (pwd secret pwd' : string) :
  escrow e pwd secret -> escrow (unlockVault pwd' e).1 pwd secret.
Proof.
  intros (r & vek & l & Hr & Hp & Hs & Hi & Hsess).
  unfold unlockVault, read. rewrite Hr. cbn.
  destruct (unwrap_by_password pwd' r) as [vek'|] eqn:Hp'; cbn.
  - rewrite <- (unwrap_by_password_unique _ _ _ _ _ Hp Hp'), Hi. cbn.
    by exists r, vek, l.
  - by exists r, vek, l.
Qed.

Lemma recoverVault_escrow (e : Engine) (pwd secret secret' : string) :
  escrow e pwd secret -> escrow (recoverVault secret' e).1 pwd secret.
Proof.
  intros (r & vek & l & Hr & Hp & Hs & Hi & Hsess).
  unfold recoverVault, read. rewrite Hr. cbn.
  destruct (unwrap_by_recovery secret' r) as [vek'|] eqn:Hs'; cbn.
  - rewrite <- (unwrap_by_recovery_unique _ _ _ _ _ Hs Hs'), Hi. cbn.
    by exists r, vek, l.
  - by exists r, vek, l.
Qed.

Lemma initializeVault_escrow (e : Engine) (pwd secret pwd' : string) :
  escrow e pwd secret -> initializeVault pwd' e = (e, Rejected AlreadyInitialized).
Proof.
  intros (r & vek & l & Hr & _).
  unfold initializeVault, exists_. rewrite Hr.
  by rewrite bool_decide_eq_true_2.
Qed.

Lemma resealed_escrow (r : VaultRecord) (vek n : bytes) (l : list VaultItem)
    (pwd secret : string) :
  unwrap_by_password pwd r = Some vek ->
  unwrap_by_recovery secret r = Some vek ->
  unwrap_by_password pwd (resealed r vek n l) = Some vek ∧
  unwrap_by_recovery secret (resealed r vek n l) = Some vek ∧
  open_items vek (resealed r vek n l) = Some l.
Proof.
  intros Hp Hs. repeat split; [done|done|]. by eapply open_items_seal.
Qed.

Lemma saveVault_escrow (e : Engine) (pwd secret : string) (l : list VaultItem) :
  escrow e pwd secret -> escrow (saveVault l e).1 pwd secret.
Proof.
  intros (r & vek & l0 & Hr & Hp & Hs & Hi & Hsess).
  destruct (resealed_escrow r vek (random (draws e) nonce_length) l pwd secret Hp Hs)
    as (Hp' & Hs' & Hi').
  unfold saveVault, read, write. rewrite Hr.
  destruct (session e) as [|vek' l'|vek' l'] eqn:Hsession; cbn.
  - exists r, vek, l0. cbn. by rewrite ?Hsession.
  - destruct Hsess as [-> ->].
    destruct (faulty (store e)); cbn.
    + exists r, vek, l0. cbn. by rewrite ?Hsession.
    + by exists (resealed r vek (random (draws e) nonce_length) l), vek, l.
  - destruct Hsess as [-> ->].
    destruct (faulty (store e)); cbn.
    + exists r, vek, l0. cbn. by rewrite ?Hsession.
    + by exists (resealed r vek (random (draws e) nonce_length) l), vek, l.
Qed.

Lemma resetMasterPassword_escrow (e : Engine) (pwd secret newPwd : string) :
  escrow e pwd secret ->
  escrow (resetMasterPassword newPwd e).1
         (password_after (OpReset newPwd) e pwd) secret.
Proof.
  intros (r & vek & l & Hr & Hp & Hs & Hi & Hsess).
  unfold password_after, exec, settled.
  unfold resetMasterPassword, read, write. rewrite Hr.
  destruct (session e) as [|vek' l'|vek' l'] eqn:Hsession; cbn.
  - exists r, vek, l. cbn. by rewrite ?Hsession.
  - exists r, vek, l. cbn. by rewrite ?Hsession.
  - destruct Hsess as [-> ->]. unfold fresh_params.
    destruct (derive_fresh (bytes_of_string newPwd) (random (draws e) salt_length))
      as [pdk Hpdk].
    rewrite Hpdk.
    destruct (faulty (store e)); cbn.
    + exists r, vek, l. cbn. by rewrite ?Hsession.
    + eexists _, vek, l. cbn. split; [reflexivity|].
      unfold unwrap_by_password. cbn. rewrite Hpdk. cbn. rewrite unwrap_wrap.
      by repeat split.
Qed.

Lemma exec_escrow (e : Engine) (pwd secret : string) (op : Op) :
  escrow e pwd secret -> escrow (exec op e).1 (password_after op e pwd) secret.
Proof.
  intros Hesc. destruct op.
  - cbn. by rewrite (initializeVault_escrow e pwd secret pwd0 Hesc).
  - by apply unlockVault_escrow.
  - by apply recoverVault_escrow.
  - by apply resetMasterPassword_escrow.
  - by apply saveVault_escrow.
  - destruct Hesc as (r & vek & l & Hr & Hp & Hs & Hi & _). by exists r, vek, l.
  - destruct Hesc as (r & vek & l & Hr & Hp & Hs & Hi & Hsess). by exists r, vek, l.
Qed.

Lemma holds_vault_escrow (e : Engine) (pwd secret : string) :
  holds_vault e pwd secret -> escrow e pwd secret.
Proof.
  induction 1 as [e0 e pwd secret Hnone Hsession Hinit|e pwd secret op Hvault IH].
  - unfold initializeVault, exists_, write in Hinit. rewrite Hnone in Hinit.
    rewrite bool_decide_eq_false_2 in Hinit by (intros [? ?]; done).
    unfold fresh_params in Hinit.
    destruct (derive (bytes_of_string pwd) _) as [pdk|] eqn:Hpdk; [|done].
    destruct (derive (bytes_of_string (hex _)) _) as [rdk|] eqn:Hrdk; [|done].
    destruct (faulty (store e0)); [done|].
    injection Hinit as <- <-.
    eexists _, _, []. cbn. split; [reflexivity|].
    unfold unwrap_by_password, unwrap_by_recovery. cbn.
    rewrite Hpdk, Hrdk. cbn. rewrite !unwrap_wrap.
    repeat split. by eapply open_items_seal.
  - by apply exec_escrow.
Qed.

(** With the right secret, either path returns the items of the record. *)
Lemma escrow_unlock_recover (e : Engine) (pwd secret : string) :
  escrow e pwd secret ->
  exists (r : VaultRecord) (vek : bytes) (l : list VaultItem),
    content (store e) = Some r ∧
    open_items vek r = Some l ∧
    unlockVault pwd e = (mkEngine (store e) (Unlocked vek l) (draws e), Fulfilled l) ∧
    recoverVault secret e = (mkEngine (store e) (Recovered vek l) (draws e), Fulfilled l).
Proof.
  intros (r & vek & l & Hr & Hp & Hs & Hi & _).
  exists r, vek, l. unfold unlockVault, recoverVault, read.
  rewrite Hr. cbn. rewrite Hp, Hs. cbn. by rewrite Hi.
Qed.

Lemma saveVault_unlocked (e : Engine) (pwd secret : string) (l l0 : list VaultItem)
    (vek : bytes) :
  escrow e pwd secret ->
  session e = Unlocked vek l0 ->
  faulty (store e) = false ->
  exists e' : Engine,
    saveVault l e = (e', Fulfilled tt) ∧ session e' = Unlocked vek l.
Proof.
  intros (r & vek' & l' & Hr & _) Hsession Hhealthy.
  unfold saveVault, read, write. rewrite Hsession, Hr, Hhealthy.
  by eexists.
Qed.

Lemma unlockVault_after_lock (e : Engine) (pwd secret : string) (l : list VaultItem)
    (vek : bytes) :
  escrow e pwd secret ->
  session e = Unlocked vek l ->
  unlockVault pwd (lock e) = (mkEngine (store e) (Unlocked vek l) (draws e), Fulfilled l).
Proof.
  intros (r & vek' & l' & Hr & Hp & _ & Hi & Hsess) Hsession.
  rewrite Hsession in Hsess. destruct Hsess as [-> ->].
  unfold unlockVault, lock, read. cbn. rewrite Hr. cbn. rewrite Hp. cbn.
  by rewrite Hi.
Qed.

(** The round trip returns the saved collection itself, in its order. *)
Lemma round_trip_exact (P : string) (C : list VaultItem) (e0 : Engine) :
  content (store e0) = None ->
  faulty (store e0) = false ->
  exists (R : string) (e1 e2 e3 : Engine),
    initializeVault P e0 = (e1, Fulfilled R) ∧
    saveVault C e1 = (e2, Fulfilled tt) ∧
    unlockVault P (lock e2) = (e3, Fulfilled C).
Proof.
  intros Hnone Hhealthy.
  destruct (initializeVault_fresh P e0 Hnone Hhealthy)
    as (R & e1 & Hinit & Hsession1 & Hhealthy1 & Hescrow1).
  destruct (saveVault_unlocked e1 P R C [] _ Hescrow1 Hsession1 Hhealthy1)
    as (e2 & Hsave & Hsession2).
  pose proof (saveVault_escrow e1 P R C Hescrow1) as Hescrow2.
  rewrite Hsave in Hescrow2. cbn in Hescrow2.
  exists R, e1, e2. eexists. split; [done|]. split; [done|].
  by apply (unlockVault_after_lock e2 P R C _ Hescrow2 Hsession2).
Qed.

(** *** The claims *)

(** C1.  Round trip.  On a store that holds no record and accepts writes,
    for every password [P] and item collection [C]: [initialize(P)]
    succeeds, [save(C)] then succeeds, and after [lock()], [unlock(P)]
    succeeds and returns a collection that is [C] up to the order of its
    items. *)
Theorem round_trip (P : string) (C : list VaultItem) (e0 : Engine) :
  content (store e0) = None ->
  faulty (store e0) = false ->
  exists (R : string) (e1 e2 e3 : Engine) (C' : list VaultItem),
    initializeVault P e0 = (e1, Fulfilled R) ∧
    saveVault C e1 = (e2, Fulfilled tt) ∧
    state_of (lock e2) = LOCKED ∧
    unlockVault P (lock e2) = (e3, Fulfilled C') ∧
    C' ≡ₚ C.
Proof.
  intros Hnone Hhealthy.
  destruct (round_trip_exact P C e0 Hnone Hhealthy)
    as (R & e1 & e2 & e3 & Hinit & Hsave & Hunlock).
  exists R, e1, e2, e3, C. repeat split; try done.
  unfold state_of, lock. cbn.
  unfold unlockVault, lock, read in Hunlock. cbn in Hunlock.
  by destruct (content (store e2)).
Qed.

(** C2.  Dual escrow.  In every engine that holds a vault (initialized
    with some password, then operated on in any way, resets, failed
    attempts and storage faults included), with [pwd] the current master
    password and [secret] the recovery secret: the password path and the
    recovery path unwrap the same VEK from the record, and unlocking with
    [pwd] and recovering with [secret] return the same item collection. *)
Theorem dual_escrow (e : Engine) (pwd secret : string) :
  holds_vault e pwd secret ->
  exists (r : VaultRecord) (vek : bytes) (l : list VaultItem),
    content (store e) = Some r ∧
    unwrap_by_password pwd r = Some vek ∧
    unwrap_by_recovery secret r = Some vek ∧
    (unlockVault pwd e).2 = Fulfilled l ∧
    (recoverVault secret e).2 = Fulfilled l.
Proof.
  intros Hvault. pose proof (holds_vault_escrow e pwd secret Hvault) as Hescrow.
  destruct (escrow_unlock_recover e pwd secret Hescrow)
    as (r' & vek' & l' & Hr' & Hi' & Hunlock & Hrecover).
  destruct Hescrow as (r & vek & l & Hr & Hp & Hs & Hi & _).
  exists r, vek, l'. rewrite Hunlock, Hrecover. by repeat split.
Qed.

(** The modelled [unlock] and [recover] reject with [AuthFailure] only,
    and a rejected attempt leaves the engine as it was. *)
Lemma unlockVault_rejects_with_AuthFailure (pwd : string) (e e' : Engine) (err : VaultError) :
  unlockVault pwd e = (e', Rejected err) -> err = AuthFailure ∧ e' = e.
Proof.
  unfold unlockVault.
  destruct (_ ≫= _) as [[vek l]|]; intros Heq; by inversion Heq.
Qed.

Lemma recoverVault_rejects_with_AuthFailure (secret : string) (e e' : Engine)
    (err : VaultError) :
  recoverVault secret e = (e', Rejected err) -> err = AuthFailure ∧ e' = e.
Proof.
  unfold recoverVault.
  destruct (_ ≫= _) as [[vek l]|]; intros Heq; by inversion Heq.
Qed.

Lemma holds_vault_after (ops : list Op) (e : Engine) (pwd secret : string) :
  holds_vault e pwd secret ->
  holds_vault (after ops e pwd).1 (after ops e pwd).2 secret.
Proof.
  revert e pwd. induction ops as [|op ops IH]; intros e pwd Hvault; [done|].
  apply (IH (exec op e).1 (password_after op e pwd)).
  by apply holds_vault_exec.
Qed.

End WithCrypto.

(** C1 on the toy engine: the password and the item of the scenario. *)
Lemma round_trip_witness :
  exists (R : string) (e1 e2 e3 : Engine) (C' : list VaultItem),
    initializeVault (kdf := Toy.kdf) (aead := Toy.aead) (codec := Toy.codec)
      (rng := Toy.csprng) Scenario.master Toy.fresh = (e1, Fulfilled R) ∧
    saveVault (aead := Toy.aead) (codec := Toy.codec) (rng := Toy.csprng)
      [Scenario.example] e1 = (e2, Fulfilled tt) ∧
    state_of (lock e2) = LOCKED ∧
    unlockVault (kdf := Toy.kdf) (aead := Toy.aead) (codec := Toy.codec)
      Scenario.master (lock e2) = (e3, Fulfilled C') ∧
    C' ≡ₚ [Scenario.example].
Proof.
  apply (round_trip (kdf := Toy.kdf) (aead := Toy.aead) (codec := Toy.codec)
           (rng := Toy.csprng) Scenario.master [Scenario.example] Toy.fresh);
    reflexivity.
Defined.

(** C2 on the toy engine: a vault that went through a save, a failed
    unlock, a recovery, a reset that failed on a faulty store, a reset
    that succeeded, and a lock. *)
Lemma dual_escrow_witness :
  let e1 := (initializeVault (kdf := Toy.kdf) (aead := Toy.aead) (codec := Toy.codec)
               (rng := Toy.csprng) Scenario.master Toy.fresh).1 in
  let ops := [OpSave [Scenario.example]; OpLock; OpUnlock "wrong";
              OpRecover Scenario.recovery; OpFault true; OpReset "lost";
              OpFault false; OpReset "NewPass9!"; OpLock] in
  let e := (after (kdf := Toy.kdf) (aead := Toy.aead) (codec := Toy.codec)
              (rng := Toy.csprng) ops e1 Scenario.master).1 in
  exists (r : VaultRecord) (vek : bytes) (l : list VaultItem),
    content (store e) = Some r ∧
    unwrap_by_password (kdf := Toy.kdf) (aead := Toy.aead) "NewPass9!" r = Some vek ∧
    unwrap_by_recovery (kdf := Toy.kdf) (aead := Toy.aead) Scenario.recovery r = Some vek ∧
    (unlockVault (kdf := Toy.kdf) (aead := Toy.aead) (codec := Toy.codec)
       "NewPass9!" e).2 = Fulfilled l ∧
    (recoverVault (kdf := Toy.kdf) (aead := Toy.aead) (codec := Toy.codec)
       Scenario.recovery e).2 = Fulfilled l.
Proof.
  intros e1 ops e.
  apply (dual_escrow (kdf := Toy.kdf) (aead := Toy.aead) (codec := Toy.codec)
           (rng := Toy.csprng) e "NewPass9!" Scenario.recovery).
  assert ((after (kdf := Toy.kdf) (aead := Toy.aead) (codec := Toy.codec)
             (rng := Toy.csprng) ops e1 Scenario.master).2 = "NewPass9!") as Hpwd
    by (vm_compute; reflexivity).
  rewrite <- Hpwd. apply holds_vault_after.
  apply (holds_vault_initialize (kdf := Toy.kdf) (aead := Toy.aead) (codec := Toy.codec)
           (rng := Toy.csprng) Toy.fresh e1 Scenario.master Scenario.recovery).
  - reflexivity.
  - reflexivity.
  - vm_compute. reflexivity.
Defined.

End EngineSpec.

(** * Properties of the modelled password generator *)
Module GeneratorSpec.

Import Generator.

Lemma alphabet_in_class (c : CharClass) : forallb (in_class c) (alphabet c) = true.
Proof. destruct c; vm_compute; reflexivity. Qed.

Lemma alphabet_nonempty (c : CharClass) : (0 < length (alphabet c))%nat.
Proof. destruct c; vm_compute; lia. Qed.

Lemma pick_elem_of (pool : list ascii) (r : nat) :
  (0 < length pool)%nat -> pick pool r ∈ pool.
Proof.
  intros Hpool. unfold pick. apply list_elem_of_In, nth_In.
  apply Nat.mod_upper_bound. lia.
Qed.

Lemma pick_alphabet_in_class (c : CharClass) (r : nat) :
  in_class c (pick (alphabet c) r) = true.
Proof.
  pose proof (alphabet_in_class c) as Hall. rewrite forallb_forall in Hall.
  apply Hall, list_elem_of_In, pick_elem_of, alphabet_nonempty.
Qed.

Lemma insert_at_perm {A : Type} (i : nat) (x : A) (l : list A) :
  insert_at i x l ≡ₚ x :: l.
Proof.
  unfold insert_at. rewrite <- Permutation_middle. by rewrite take_drop.
Qed.

Lemma shuffle_perm {A : Type} (rnd : nat -> nat) (l : list A) : shuffle rnd l ≡ₚ l.
Proof.
  revert rnd. induction l as [|x l IH]; intros rnd; cbn [shuffle]; [done|].
  by rewrite insert_at_perm, IH.
Qed.

Lemma length_string_of_list_ascii (l : list ascii) :
  String.length (string_of_list_ascii l) = length l.
Proof. induction l as [|ch l IH]; cbn; [done|]. by rewrite IH. Qed.

Lemma contains_elem_of (c : CharClass) (l : list ascii) (ch : ascii) :
  ch ∈ l -> in_class c ch = true -> contains c (string_of_list_ascii l) = true.
Proof.
  intros Hin Hclass. unfold contains. rewrite list_ascii_of_string_of_list_ascii.
  apply existsb_exists. exists ch. split; [by apply list_elem_of_In|done].
Qed.

(** The generator succeeds on every valid configuration, with a string of
    the requested length that has a character of every required class. *)
Lemma generate_covers (n : nat) (required : list CharClass) (rnd : nat -> nat) :
  (0 < length required)%nat ->
  (length required <= n)%nat ->
  exists s : string,
    generate n required rnd = inr s ∧
    String.length s = n ∧
    forall c : CharClass, c ∈ required -> contains c s = true.
Proof.
  intros Hsome Hfit. unfold generate.
  rewrite (proj2 (Nat.eqb_neq _ _)) by lia.
  rewrite (proj2 (Nat.ltb_ge _ _)) by lia. cbn [orb].
  eexists. split; [reflexivity|]. split.
  - rewrite length_string_of_list_ascii, shuffle_perm.
    rewrite length_app, length_imap, length_map, length_seq. lia.
  - intros c Hc. apply list_elem_of_lookup in Hc as [i Hi].
    apply (contains_elem_of c _ (pick (alphabet c) (rnd i))).
    + rewrite shuffle_perm. apply elem_of_app. left.
      apply list_elem_of_lookup. exists i. by rewrite list_lookup_imap, Hi.
    + apply pick_alphabet_in_class.
Qed.

(** C9.  Whatever the random source yields, [generateSecurePassword(16)]
    returns a string of length exactly 16 with at least one uppercase
    letter, one lowercase letter, one digit and one symbol. *)
Theorem generateSecurePassword_16 (rnd : nat -> nat) :
  exists s : string,
    generateSecurePassword 16 rnd = inr s ∧
    String.length s = 16 ∧
    contains Uppercase s = true ∧
    contains Lowercase s = true ∧
    contains Digit s = true ∧
    contains Symbol s = true.
Proof.
  destruct (generate_covers 16 [Uppercase; Lowercase; Digit; Symbol] rnd)
    as (s & Hgen & Hlen & Hcover); [cbn; lia|cbn; lia|].
  exists s. split; [done|]. split; [done|].
  repeat split; apply Hcover; set_solver.
Qed.

Example generateSecurePassword_sample :
  generateSecurePassword 16 (fun k => k * 7 + 3) = inr "ZSkD07<7%$LmtE_f".
Proof. vm_compute. reflexivity. Qed.

Example generateSecurePassword_too_short :
  generateSecurePassword 3 (fun k => k * 7 + 3) = inl InvalidParameters.
Proof. vm_compute. reflexivity. Qed.

End GeneratorSpec.

(** * The screens of [src/App.tsx]

    The components below [App] keep state of their own ([useState]) and
    call the handlers that [App] passes to them.  A character of a Rocq
    string stands for one code unit of the JavaScript string. *)
Module Screens.

Import App.

(** The rest of the render of lines 157-167: only [LoginScreen] and
    [ResetPasswordScreen] are passed the [error] cell. *)
Definition error_prop (s : AppState) (e : option string) : option string :=
  match s with
  | LOCKED | RECOVERY_SUCCESS => e
  | LOADING | SETUP | UNLOCKED => None
  end.



(** ** [SetupScreen], lines 211-270 *)
Module SetupScreen.

Record State : Type := mkState {
  pwd : string;
  confirm : string;
  loading : bool
}.

Definition test (p : ascii -> bool) (s : string) : bool :=
  existsb p (list_ascii_of_string s).

(** [strength], lines 216-224. *)
Definition strength (pwd : string) : nat :=
  if bool_decide (pwd = "") then 0 else
  ((if (12 <=? String.length pwd)%nat then 25 else 0) +
   (if test Generator.is_upper pwd then 25 else 0) +
   (if test Generator.is_digit pwd then 25 else 0) +
   (if test Generator.is_symbol pwd then 25 else 0))%nat.

(** [isValid], line 226. *)
Definition isValid (pwd confirm : string) : bool :=
  (75 <=? strength pwd)%nat && bool_decide (pwd = confirm).

(** The submit button, line 262: [disabled={!isValid || loading}]. *)
Definition canSubmit (s : State) : bool :=
  isValid (pwd s) (confirm s) && negb (loading s).

(** [handleSubmit], lines 228-232: [setLoading(false)] runs only when
    [onComplete] fulfils. *)
Definition handleSubmit {V : Type} (onComplete : string -> Handler V unit)
    (s : State) (w : World V) : (State * World V) * Promise unit :=
  let s1 := mkState (pwd s) (confirm s) true in
  match onComplete (pwd s) w with
  | (w', Fulfilled _) => ((mkState (pwd s) (confirm s) false, w'), Fulfilled tt)
  | (w', Rejected e) => ((s1, w'), Rejected e)
  end.

End SetupScreen.

(** ** [ResetPasswordScreen], lines 272-304 *)
Module ResetPasswordScreen.

Record State : Type := mkState {
  pwd : string;
  confirm : string;
  loading : bool
}.

(** The button, line 295: [disabled={!pwd || pwd !== confirm || loading}]. *)
Definition canSubmit (s : State) : bool :=
  negb (bool_decide (pwd s = "")) && bool_decide (pwd s = confirm s) && negb (loading s).

(** [handleSubmit], lines 277-281: nothing happens when the two fields
    differ; otherwise [setLoading(false)] runs in the [finally] block and
    the rejection of [onComplete], if any, goes on. *)
Definition handleSubmit {V : Type} (onComplete : string -> Handler V unit)
    (s : State) (w : World V) : (State * World V) * Promise unit :=
  if bool_decide (pwd s ≠ confirm s) then ((s, w), Fulfilled tt) else
  match onComplete (pwd s) w with
  | (w', Fulfilled _) => ((mkState (pwd s) (confirm s) false, w'), Fulfilled tt)
  | (w', Rejected e) => ((mkState (pwd s) (confirm s) false, w'), Rejected e)
  end.

End ResetPasswordScreen.

(** ** [LoginScreen], lines 307-365 *)
Module LoginScreen.

Record State : Type := mkState {
  pwd : string;
  isRecovering : bool;
  loading : bool
}.

(** The component as mounted, lines 308-310. *)
Definition initial : State := mkState "" false false.

(** What the user can do to the screen. *)
Inductive Event : Type :=
| TypePwd (s : string)
| KeyEnter
| ClickUnlock
| ClickBiometric
| ClickForgot
| ClickCancel
| ClickRestore.

(** Which of these the rendered view takes: the recovery view of lines
    322-341 has the key field, Cancel ([disabled={loading}]) and Restore
    ([disabled={!pwd || loading}]); the unlock view of lines 342-364 has
    the password field with its Enter key, Unlock ([disabled={loading}]),
    Biometric and the link to the recovery view. *)
Definition available (s : State) (ev : Event) : bool :=
  match ev, isRecovering s with
  | TypePwd _, _ => true
  | ClickCancel, true => negb (loading s)
  | ClickRestore, true => negb (bool_decide (pwd s = "")) && negb (loading s)
  | KeyEnter, false => true
  | ClickUnlock, false => negb (loading s)
  | ClickBiometric, false => true
  | ClickForgot, false => true
  | _, _ => false
  end.

Section WithProps.

Context {V : Type}.
Context (onUnlock onRecover : string -> Handler V unit) (onClearError : Handler V unit).

(** [handleUnlockClick], lines 312-315, and [handleRecoverClick], lines
    317-320: [loading] is set and the handler of [App] is called; its
    promise is dropped. *)
Definition handleUnlockClick (s : State) (w : World V) : State * World V :=
  (mkState (pwd s) (isRecovering s) true, (onUnlock (pwd s) w).1).

Definition handleRecoverClick (s : State) (w : World V) : State * World V :=
  (mkState (pwd s) (isRecovering s) true, (onRecover (pwd s) w).1).

(** The event handlers of lines 329-361.  The Biometric button of line
    356 has no handler. *)
Definition react (ev : Event) (s : State) (w : World V) : State * World V :=
  match ev with
  | TypePwd p => (mkState p (isRecovering s) (loading s), w)
  | KeyEnter | ClickUnlock => handleUnlockClick s w
  | ClickBiometric => (s, w)
  | ClickForgot => (mkState "" true (loading s), (onClearError w).1)
  | ClickCancel => (mkState "" false (loading s), (onClearError w).1)
  | ClickRestore => handleRecoverClick s w
  end.

Definition step (x : State * World V) (ev : Event) : State * World V :=
  if available x.1 ev then react ev x.1 x.2 else x.

End WithProps.

End LoginScreen.

(** [LoginScreen] with the props of line 159. *)
Definition login {V : Type} (svc : VaultService.t V)
    (x : LoginScreen.State * World V) (ev : LoginScreen.Event)
  : LoginScreen.State * World V :=
  LoginScreen.step (handleUnlock svc) (handleRecover svc) (setError None) x ev.

End Screens.

(** * Further properties of the application *)
Module AppMore.

Import App AppSpec Screens.

(** The states that [step] can lead to from each state. *)
Definition successors (s : AppState) : list AppState :=
  match s with
  | LOADING => [LOADING]
  | SETUP => [SETUP; UNLOCKED]
  | LOCKED => [LOCKED; UNLOCKED; RECOVERY_SUCCESS]
  | RECOVERY_SUCCESS => [RECOVERY_SUCCESS; UNLOCKED]
  | UNLOCKED => [UNLOCKED; LOCKED]
  end.

(** The states that come after the choice between setup and login. *)
Definition past_setup (s : AppState) : bool :=
  match s with
  | LOCKED | RECOVERY_SUCCESS | UNLOCKED => true
  | LOADING | SETUP => false
  end.

(** Whether an event fits a step taken from state [s] that leaves the
    items [shown]: a request is made only from the state whose screen
    calls it, a save carries the items that are shown, and
    [hasExistingVault] is never asked by a step. *)
Definition fits (s : AppState) (shown : list VaultItem) (ev : Event) : bool :=
  match ev with
  | Call ReqHasExistingVault => false
  | Call (ReqInitializeVault _) => bool_decide (s = SETUP)
  | Call (ReqUnlockVault _) | Call (ReqRecoverVault _) => bool_decide (s = LOCKED)
  | Call (ReqResetMasterPassword _) => bool_decide (s = RECOVERY_SUCCESS)
  | Call (ReqSaveVault l) => bool_decide (s = UNLOCKED) && bool_decide (l = shown)
  | _ => true
  end.

Definition is_call (ev : Event) : bool :=
  match ev with Call _ => true | _ => false end.

Definition is_initialize (ev : Event) : bool :=
  match ev with Call (ReqInitializeVault _) => true | _ => false end.

(** The requests that derive a key, which [yieldToUI] is there for
    (line 41). *)
Definition is_heavy (ev : Event) : bool :=
  match ev with
  | Call (ReqInitializeVault _) | Call (ReqUnlockVault _)
  | Call (ReqRecoverVault _) | Call (ReqResetMasterPassword _) => true
  | _ => false
  end.

(** Every heavy request of [evs] comes right after a [YieldToUI]; [prev]
    is the event before [evs]. *)
Fixpoint yielded (prev : option Event) (evs : list Event) : bool :=
  match evs with
  | [] => true
  | ev :: rest =>
      (if is_heavy ev then bool_decide (prev = Some YieldToUI) else true)
      && yielded (Some ev) rest
  end.

(** The actions that write the [recoveryKey] cell. *)
Definition writes_recoveryKey (a : Action) : bool :=
  match a with Setup _ | CloseRecovery => true | _ => false end.

(** The actions that write the [showPassword] cell. *)
Definition writes_showPassword (a : Action) : bool :=
  match a with ToggleVisibility _ => true | _ => false end.


(** A service of which every call rejects. *)
Definition broken : VaultService.t unit :=
  VaultService.Build
    (fun v => (v, Rejected StorageFailure)) (fun _ v => (v, Rejected StorageFailure))
    (fun _ v => (v, Rejected StorageFailure)) (fun _ v => (v, Rejected StorageFailure))
    (fun _ v => (v, Rejected StorageFailure)) (fun _ v => (v, Rejected StorageFailure)).

Section WithService.

Context {V : Type} (svc : VaultService.t V).

(** The events that one action adds to the log. *)
Definition step_events (w : World V) (a : Action) : list Event :=
  drop (length (trace w)) (trace (step svc w a)).

(** Replaces the handler that the goal runs on [w] by the world it
    returns, once for each way in which its service call can settle. *)
Ltac settle w :=
  repeat first
    [ rewrite (handleVisibilityChange_eq w)
    | rewrite (handleLock_eq w)
    | rewrite (handleAdd_eq svc w)
    | rewrite (handleDelete_eq svc w)
    | match goal with
      | |- context [handleSetup svc ?p w] =>
          let Hcall := fresh "Hcall" in
          destruct (VaultService.initializeVault svc p (vault w)) as [? [?|?]] eqn:Hcall;
          [ rewrite (handleSetup_fulfilled svc w p _ _ Hcall)
          | rewrite (handleSetup_rejected svc w p _ _ Hcall) ]
      | |- context [handleUnlock svc ?p w] =>
          let Hcall := fresh "Hcall" in
          destruct (VaultService.unlockVault svc p (vault w)) as [? [?|?]] eqn:Hcall;
          [ rewrite (handleUnlock_fulfilled svc w p _ _ Hcall)
          | rewrite (handleUnlock_rejected svc w p _ _ Hcall) ]
      | |- context [handleRecover svc ?p w] =>
          let Hcall := fresh "Hcall" in
          destruct (VaultService.recoverVault svc p (vault w)) as [? [?|?]] eqn:Hcall;
          [ rewrite (handleRecover_fulfilled svc w p _ _ Hcall)
          | rewrite (handleRecover_rejected svc w p _ _ Hcall) ]
      | |- context [handlePasswordReset svc ?p w] =>
          let Hcall := fresh "Hcall" in
          destruct (VaultService.resetMasterPassword svc p (vault w)) as [? [[]|?]] eqn:Hcall;
          [ rewrite (handlePasswordReset_fulfilled svc w p _ Hcall)
          | rewrite (handlePasswordReset_rejected svc w p _ _ Hcall) ]
      end ].

(** Splits a goal about [step svc w a] by the state and the action. *)
Ltac step_cases w a :=
  unfold step_events, step;
  let Hstate := fresh "Hstate" in
  destruct (appState (ui w)) eqn:Hstate; destruct a;
  cbn [offered dispatch];
  settle w; rewrite ?Hstate;
  unfold save, with_error, toggleVisibility, setShowPassword, setError, setRecoveryKey,
    update, log;
  repeat (case_bool_decide; try discriminate);
  cbn [ui vault trace appState items recoveryKey error showPassword fst snd andb].

(** X1.  The state machine of the component: whatever the service
    answers, an action leads from a state to one of its [successors].
    [LOADING] is left only by the mount effect, [SETUP] is never entered
    again, and [RECOVERY_SUCCESS] is left only for [UNLOCKED]. *)
Theorem step_follows_transitions (w : World V) (a : Action) :
  appState (ui (step svc w a)) ∈ successors (appState (ui w)).
Proof.
  step_cases w a; rewrite ?Hstate; cbn; set_solver.
Qed.

Lemma step_trace (w : World V) (a : Action) :
  trace (step svc w a) = trace w ++ step_events w a.
Proof.
  step_cases w a; rewrite ?drop_app_length, ?drop_all, ?app_nil_r; done.
Qed.

(** X2.  Requests follow the state.  Among the events of any action, a
    request to the service is made only from the state whose screen
    calls it ([initializeVault] from [SETUP], [unlockVault] and
    [recoverVault] from [LOCKED], [resetMasterPassword] from
    [RECOVERY_SUCCESS], [saveVault] from [UNLOCKED]), a [saveVault]
    request carries exactly the items that the component shows after the
    action, and [hasExistingVault] is not asked again. *)
Theorem requests_fit_state (w : World V) (a : Action) :
  forallb (fits (appState (ui w)) (items (ui (step svc w a)))) (step_events w a) = true.
Proof.
  step_cases w a; rewrite ?drop_app_length, ?drop_all; cbn;
    rewrite ?bool_decide_eq_true_2 by done; done.
Qed.

(** X6.  One request per action, after a pause.  An action makes at most
    one request to the service (nothing is retried), and every request
    that derives a key comes immediately after [yieldToUI]. *)
Theorem one_request_after_yield (w : World V) (a : Action) :
  (length (filter is_call (step_events w a)) <= 1)%nat ∧
  yielded None (step_events w a) = true.
Proof.
  step_cases w a; rewrite ?drop_app_length, ?drop_all;
    (split; [vm_compute; lia|vm_compute; reflexivity]).
Qed.

(** X5.  Which handlers can reject.  [handleSetup], [handleUnlock],
    [handleRecover], [handleLock], [handleVisibilityChange] and
    [toggleVisibility] fulfil whatever the service does: their callers
    never see a rejection.  [handlePasswordReset], [handleAdd] and
    [handleDelete] settle exactly as their service call does, and
    [checkState] rejects exactly when [hasExistingVault] does. *)
Theorem handlers_settle (w : World V) (p title user pass : string) (v : VisibilityState) :
  (handleSetup svc p w).2 = Fulfilled tt ∧
  (handleUnlock svc p w).2 = Fulfilled tt ∧
  (handleRecover svc p w).2 = Fulfilled tt ∧
  (handleLock w).2 = Fulfilled tt ∧
  (handleVisibilityChange v w).2 = Fulfilled tt ∧
  (toggleVisibility p w).2 = Fulfilled tt ∧
  (handlePasswordReset svc p w).2 = (VaultService.resetMasterPassword svc p (vault w)).2 ∧
  (handleAdd svc p title user pass w).2 =
    (VaultService.saveVault svc (items (ui w) ++ [mkVaultItem p title user pass]) (vault w)).2 ∧
  (handleDelete svc p w).2 =
    (VaultService.saveVault svc (filter (fun i => id i ≠ p) (items (ui w))) (vault w)).2 ∧
  (checkState svc w).2 =
    match (VaultService.hasExistingVault svc (vault w)).2 with
    | Fulfilled _ => Fulfilled tt
    | Rejected e => Rejected e
    end.
Proof.
  assert ((checkState svc w).2 =
          match (VaultService.hasExistingVault svc (vault w)).2 with
          | Fulfilled _ => Fulfilled tt
          | Rejected e => Rejected e
          end) as Hcheck.
  { run_handler. by destruct (VaultService.hasExistingVault svc (vault w)) as [v' [b|e]]. }
  assert ((handleVisibilityChange v w).2 = Fulfilled tt) as Hvis.
  { rewrite handleVisibilityChange_eq. destruct (_ && _); [by rewrite handleLock_eq|done]. }
  split_and!;
    first [done | by settle w | by rewrite handleAdd_eq | by rewrite handleDelete_eq].
Qed.

(** *** Whole sessions *)

(** The events that a sequence of actions adds to the log. *)
Definition run_events (w : World V) (actions : list Action) : list Event :=
  drop (length (trace w)) (trace (foldl (step svc) w actions)).

Lemma run_trace (w : World V) (actions : list Action) :
  trace (foldl (step svc) w actions) = trace w ++ run_events w actions.
Proof.
  unfold run_events. revert w. induction actions as [|a actions IH]; intros w; cbn.
  - by rewrite drop_all, app_nil_r.
  - rewrite IH, step_trace, <- app_assoc. by rewrite drop_app_length.
Qed.

Lemma run_events_cons (w : World V) (a : Action) (actions : list Action) :
  run_events w (a :: actions) = step_events w a ++ run_events (step svc w a) actions.
Proof.
  unfold run_events at 1. cbn [foldl].
  by rewrite run_trace, step_trace, <- app_assoc, drop_app_length.
Qed.

Lemma fits_not_hasExistingVault (s : AppState) (l : list VaultItem) (evs : list Event) :
  forallb (fits s l) evs = true ->
  filter (fun ev => ev = Call ReqHasExistingVault) evs = [].
Proof.
  induction evs as [|ev evs IH]; cbn [forallb]; [done|].
  intros [Hev Hevs]%andb_prop. rewrite filter_cons_False; [by apply IH|].
  intros ->. done.
Qed.

Lemma fits_not_initialize (s : AppState) (l : list VaultItem) (evs : list Event) :
  past_setup s = true ->
  forallb (fits s l) evs = true ->
  filter is_initialize evs = [].
Proof.
  intros Hs. induction evs as [|ev evs IH]; cbn [forallb]; [done|].
  intros [Hev Hevs]%andb_prop. rewrite filter_cons_False; [by apply IH|].
  destruct ev as [| | | | | |[]]; try (by intros []).
  intros _. cbn in Hev. apply bool_decide_eq_true_1 in Hev. by subst.
Qed.

Lemma step_past_setup (w : World V) (a : Action) :
  past_setup (appState (ui w)) = true -> past_setup (appState (ui (step svc w a))) = true.
Proof.
  pose proof (step_follows_transitions w a) as Hnext.
  destruct (appState (ui w)); [done|done|..]; intros _; cbn in Hnext;
    set_unfold; by destruct Hnext as [->|[->|Hnext]]; try destruct Hnext as [->|[]].
Qed.

(** X3.  [hasExistingVault] is asked once per session.  In every
    reachable world the log starts with the request to
    [hasExistingVault] and contains no second one, whatever the user and
    the service did since. *)
Theorem hasExistingVault_asked_once (w : World V) :
  reachable svc w ->
  head (trace w) = Some (Call ReqHasExistingVault) ∧
  length (filter (fun ev => ev = Call ReqHasExistingVault) (trace w)) = 1%nat.
Proof.
  induction 1 as [v|w a Hw [Hhead Hcount]|w v Hw IH]; [| |exact IH].
  - run_handler. by destruct (VaultService.hasExistingVault svc v) as [v' [b|e]].
  - rewrite step_trace, filter_app, length_app, Hcount.
    rewrite (fits_not_hasExistingVault _ _ _ (requests_fit_state w a)).
    split; [|done]. by destruct (trace w).
Qed.

(** X4.  No second initialization.  Once the component is past the
    choice between setup and login (in [LOCKED], [RECOVERY_SUCCESS] or
    [UNLOCKED]), no sequence of actions brings it back to [LOADING] or
    [SETUP], and none makes it request [initializeVault]. *)
Theorem no_initialize_past_setup (w : World V) (actions : list Action) :
  past_setup (appState (ui w)) = true ->
  past_setup (appState (ui (foldl (step svc) w actions))) = true ∧
  filter is_initialize (run_events w actions) = [].
Proof.
  revert w. induction actions as [|a actions IH]; intros w Hpast.
  - split; [done|]. unfold run_events. cbn. by rewrite drop_all.
  - destruct (IH (step svc w a) (step_past_setup w a Hpast)) as [Hstate Hnone].
    split; [done|].
    rewrite run_events_cons, filter_app, Hnone, app_nil_r.
    by apply (fits_not_initialize _ _ _ Hpast (requests_fit_state w a)).
Qed.

Lemma step_loading (w : World V) (a : Action) :
  appState (ui w) = LOADING -> step svc w a = w.
Proof.
  intros Hstate. unfold step. rewrite Hstate. destruct a; try done.
  cbn [offered dispatch]. by rewrite handleVisibilityChange_eq, Hstate, andb_false_r.
Qed.

(** X7.  A rejected start-up check leaves the spinner for good.  When
    [hasExistingVault] rejects, [checkState] sets no state: the component
    stays in [LOADING], where no action has any effect, so after any
    sequence of actions the world is still the one that mounting left,
    with the one request in its log. *)
Theorem rejected_check_keeps_loading (v v' : V) (e : VaultError) (actions : list Action) :
  VaultService.hasExistingVault svc v = (v', Rejected e) ->
  foldl (step svc) (mount svc v) actions =
    mkWorld (mkUI LOADING [] None None ∅) v' [Call ReqHasExistingVault].
Proof.
  intros Hcall.
  assert (mount svc v = mkWorld (mkUI LOADING [] None None ∅) v' [Call ReqHasExistingVault])
    as -> by (run_handler; by rewrite Hcall).
  induction actions as [|a actions IH]; [done|].
  cbn [foldl]. by rewrite step_loading.
Qed.

Lemma step_keeps_cells (w : World V) (a : Action) :
  (writes_recoveryKey a = false -> recoveryKey (ui (step svc w a)) = recoveryKey (ui w)) ∧
  (writes_showPassword a = false -> showPassword (ui (step svc w a)) = showPassword (ui w)).
Proof. step_cases w a; by split. Qed.

(** X8.  The recovery key and the revealed passwords outlive a lock.
    The [recoveryKey] cell is written by a setup and by closing the
    recovery dialog only, and the [showPassword] cell by
    [toggleVisibility] only: through any other sequence of actions (locks
    by hand or on a hidden page, failed and successful unlocks,
    recoveries, resets, additions and deletions) they keep their
    values. *)
Theorem cells_survive_lock (w : World V) (actions : list Action) :
  (forallb (fun a => negb (writes_recoveryKey a)) actions = true ->
   recoveryKey (ui (foldl (step svc) w actions)) = recoveryKey (ui w)) ∧
  (forallb (fun a => negb (writes_showPassword a)) actions = true ->
   showPassword (ui (foldl (step svc) w actions)) = showPassword (ui w)).
Proof.
  revert w. induction actions as [|a actions IH]; intros w; [done|].
  destruct (IH (step svc w a)) as [IHkey IHshow].
  destruct (step_keeps_cells w a) as [Hkey Hshow].
  cbn [foldl forallb]. split; intros [Ha Hrest]%andb_prop.
  - rewrite (IHkey Hrest). apply Hkey. by destruct (writes_recoveryKey a).
  - rewrite (IHshow Hrest). apply Hshow. by destruct (writes_showPassword a).
Qed.


(** X10.  The two outcomes of a setup.  From [SETUP], when
    [initializeVault] fulfils with a recovery key, the component is
    [UNLOCKED] with no items, no error and that key in [recoveryKey];
    when it rejects, the component stays in [SETUP] with the items and
    the recovery key as they were, and the message it sets reaches no
    screen, since [SetupScreen] is not passed the error. *)
Theorem handleSetup_outcome (w : World V) (pwd : string) :
  appState (ui w) = SETUP ->
  (forall (v' : V) (rKey : string),
      VaultService.initializeVault svc pwd (vault w) = (v', Fulfilled rKey) ->
      ui (step svc w (Setup pwd)) = mkUI UNLOCKED [] (Some rKey) None (showPassword (ui w))) ∧
  (forall (v' : V) (e : VaultError),
      VaultService.initializeVault svc pwd (vault w) = (v', Rejected e) ->
      ui (step svc w (Setup pwd)) =
        mkUI SETUP (items (ui w)) (recoveryKey (ui w)) (Some "Failed to initialize vault.")
             (showPassword (ui w)) ∧
      error_prop (appState (ui (step svc w (Setup pwd))))
                 (error (ui (step svc w (Setup pwd)))) = None).
Proof.
  intros Hstate. unfold step. rewrite Hstate. cbn [offered dispatch]. split.
  - intros v' rKey Hcall. by rewrite (handleSetup_fulfilled svc w pwd v' rKey Hcall).
  - intros v' e Hcall. rewrite (handleSetup_rejected svc w pwd v' e Hcall).
    unfold with_error. cbn. by rewrite Hstate.
Qed.



End WithService.

(** *** The theorems on the scenario *)

(** X3 on the scenario: the log of the recovered session. *)
Lemma hasExistingVault_asked_once_witness :
  head (trace Scenario.recovered) = Some (Call ReqHasExistingVault) ∧
  length (filter (fun ev => ev = Call ReqHasExistingVault) (trace Scenario.recovered)) = 1%nat.
Proof.
  apply (hasExistingVault_asked_once Toy.service Scenario.recovered), recovered_reachable.
Defined.

(** X4 on the scenario: from the locked vault, a session in which a
    setup is attempted too. *)
Lemma no_initialize_past_setup_witness :
  let actions := [Unlock Scenario.master; Add "2" "Other" "c@d.com" "y"; Lock;
                  Setup "again"; Recover Scenario.recovery; PasswordReset "NewPass9!"] in
  past_setup (appState (ui (foldl (step Toy.service) Scenario.locked actions))) = true ∧
  filter is_initialize (run_events Toy.service Scenario.locked actions) = [].
Proof.
  intros actions.
  apply (no_initialize_past_setup Toy.service Scenario.locked actions).
  vm_compute. reflexivity.
Defined.

(** X7 on the service of which every call rejects. *)
Lemma rejected_check_keeps_loading_witness :
  foldl (step broken) (mount broken tt)
    [Setup "a"; Unlock "b"; Lock; VisibilityChange hidden; Recover "c"] =
  mkWorld (mkUI LOADING [] None None ∅) tt [Call ReqHasExistingVault].
Proof.
  apply (rejected_check_keeps_loading broken tt tt StorageFailure). reflexivity.
Defined.

(** X8 on the scenario: the page is hidden while the recovery key of a
    new vault is still on the screen, and the vault is unlocked again. *)
Lemma cells_survive_lock_witness :
  let w := step Toy.service (mount Toy.service Toy.fresh) (Setup Scenario.master) in
  let actions := [VisibilityChange hidden; Unlock "wrong"; Unlock Scenario.master;
                  Add "1" "Example" "a@b.com" "x"; Lock; Unlock Scenario.master] in
  recoveryKey (ui w) = Some Scenario.recovery ∧
  appState (ui (foldl (step Toy.service) w actions)) = UNLOCKED ∧
  recoveryKey (ui (foldl (step Toy.service) w actions)) = recoveryKey (ui w) ∧
  showPassword (ui (foldl (step Toy.service) w actions)) = showPassword (ui w).
Proof.
  intros w actions.
  destruct (cells_survive_lock Toy.service w actions) as [Hkey Hshow].
  split; [vm_compute; reflexivity|]. split; [vm_compute; reflexivity|]. split.
  - apply Hkey. vm_compute. reflexivity.
  - apply Hshow. vm_compute. reflexivity.
Defined.


(** X10 on the toy engine: a setup on an empty store, and a setup on a
    store that rejects the write. *)
Lemma handleSetup_outcome_witness :
  let w := mount Toy.service Toy.fresh in
  let w' := behind (Engine.set_faulty true Toy.fresh) w in
  ui (step Toy.service w (Setup Scenario.master)) =
    mkUI UNLOCKED [] (Some Scenario.recovery) None (showPassword (ui w)) ∧
  ui (step Toy.service w' (Setup Scenario.master)) =
    mkUI SETUP (items (ui w')) (recoveryKey (ui w')) (Some "Failed to initialize vault.")
         (showPassword (ui w')) ∧
  error_prop (appState (ui (step Toy.service w' (Setup Scenario.master))))
             (error (ui (step Toy.service w' (Setup Scenario.master)))) = None.
Proof.
  intros w w'.
  destruct (handleSetup_outcome Toy.service w Scenario.master) as [Hok _];
    [vm_compute; reflexivity|].
  destruct (handleSetup_outcome Toy.service w' Scenario.master) as [_ Hfail];
    [vm_compute; reflexivity|].
  split.
  - apply (Hok (vault (step Toy.service w (Setup Scenario.master)))). vm_compute. reflexivity.
  - apply (Hfail (vault (step Toy.service w' (Setup Scenario.master))) StorageFailure).
    vm_compute. reflexivity.
Defined.


End AppMore.

(** * Properties of the screens *)
Module ScreensSpec.

Import App AppSpec Screens.

(** *** The strength meter of [SetupScreen] *)

Lemma list_ascii_of_string_append (p q : string) :
  list_ascii_of_string (String.append p q) = list_ascii_of_string p ++ list_ascii_of_string q.
Proof. induction p as [|ch p IH]; simpl; [done|]. by rewrite IH. Qed.

Lemma length_append (p q : string) :
  String.length (String.append p q) = (String.length p + String.length q)%nat.
Proof. induction p as [|ch p IH]; simpl; [done|]. by rewrite IH. Qed.

Lemma test_append (f : ascii -> bool) (p q : string) :
  SetupScreen.test f p = true -> SetupScreen.test f (String.append p q) = true.
Proof.
  unfold SetupScreen.test. intros Hp.
  by rewrite list_ascii_of_string_append, existsb_app, Hp.
Qed.

Lemma test_false (f g : ascii -> bool) (p : string) :
  (forall ch, g ch = true -> f ch = false) ->
  forallb g (list_ascii_of_string p) = true -> SetupScreen.test f p = false.
Proof.
  intros Hfg. unfold SetupScreen.test.
  induction (list_ascii_of_string p) as [|ch l IH]; cbn; [done|].
  intros [Hch Hl]%andb_prop. by rewrite (Hfg ch Hch), IH.
Qed.

Lemma is_lower_only (ch : ascii) :
  Generator.is_lower ch = true ->
  Generator.is_upper ch = false ∧ Generator.is_digit ch = false ∧
  Generator.is_symbol ch = false.
Proof.
  unfold Generator.is_symbol, Generator.is_upper, Generator.is_digit, Generator.is_lower.
  intros [Hlo Hhi]%andb_prop. rewrite Hlo, Hhi. apply Nat.leb_le in Hlo.
  assert ((nat_of_ascii ch <=? 90)%nat = false) as -> by (apply Nat.leb_gt; lia).
  assert ((nat_of_ascii ch <=? 57)%nat = false) as -> by (apply Nat.leb_gt; lia).
  by rewrite !andb_false_r.
Qed.

(** X13.  The strength meter.  The strength of a password is one of 0,
    25, 50, 75 and 100, and typing more characters after a password never
    lowers it. *)
Theorem strength_range_and_growth (p q : string) :
  SetupScreen.strength p ∈ [0; 25; 50; 75; 100]%nat ∧
  (SetupScreen.strength p <= SetupScreen.strength (String.append p q))%nat.
Proof.
  split.
  - unfold SetupScreen.strength.
    case_bool_decide; [by repeat constructor|].
    destruct (12 <=? String.length p)%nat, (SetupScreen.test Generator.is_upper p),
      (SetupScreen.test Generator.is_digit p), (SetupScreen.test Generator.is_symbol p);
      cbn; by repeat constructor.
  - unfold SetupScreen.strength.
    case_bool_decide as Hp; [lia|].
    rewrite bool_decide_eq_false_2 by (by destruct p).
    pose proof (test_append Generator.is_upper p q) as Hupper.
    pose proof (test_append Generator.is_digit p q) as Hdigit.
    pose proof (test_append Generator.is_symbol p q) as Hsymbol.
    assert ((12 <=? String.length p)%nat = true ->
            (12 <=? String.length (String.append p q))%nat = true) as Hlen.
    { rewrite !Nat.leb_le, length_append. lia. }
    destruct (12 <=? String.length p)%nat, (SetupScreen.test Generator.is_upper p),
      (SetupScreen.test Generator.is_digit p), (SetupScreen.test Generator.is_symbol p);
      rewrite ?Hupper, ?Hdigit, ?Hsymbol, ?Hlen by done;
      repeat match goal with |- context [if ?b then _ else _] => destruct b end; lia.
Qed.

(** X14.  The twelve-character minimum is not enforced.  For a password
    of fewer than twelve characters, typed twice, [isValid] holds exactly
    when the password has an uppercase letter, a digit and a symbol. *)
Theorem short_password_can_be_valid (pwd : string) :
  (String.length pwd < 12)%nat ->
  SetupScreen.isValid pwd pwd = true ↔
    SetupScreen.test Generator.is_upper pwd = true ∧
    SetupScreen.test Generator.is_digit pwd = true ∧
    SetupScreen.test Generator.is_symbol pwd = true.
Proof.
  intros Hshort. unfold SetupScreen.isValid, SetupScreen.strength.
  rewrite (bool_decide_eq_true_2 (pwd = pwd)) by done. rewrite andb_true_r.
  replace (12 <=? String.length pwd)%nat with false by (symmetry; apply Nat.leb_gt; lia).
  case_bool_decide as Hempty.
  - subst. by split; [|intros [? _]].
  - destruct (SetupScreen.test Generator.is_upper pwd),
      (SetupScreen.test Generator.is_digit pwd), (SetupScreen.test Generator.is_symbol pwd);
      cbn; split; try done; by intros (? & ? & ?).
Qed.

Lemma short_password_can_be_valid_witness : SetupScreen.isValid "A1!" "A1!" = true.
Proof.
  apply (short_password_can_be_valid "A1!"); [cbn; lia|].
  by vm_compute.
Defined.

(** X15.  Lowercase letters do not count.  A password made of lowercase
    letters only has strength at most 25 and is never valid, however long
    it is and whatever is typed as its confirmation. *)
Theorem lowercase_letters_never_count (pwd confirm : string) :
  forallb Generator.is_lower (list_ascii_of_string pwd) = true ->
  (SetupScreen.strength pwd <= 25)%nat ∧ SetupScreen.isValid pwd confirm = false.
Proof.
  intros Hlower.
  assert (SetupScreen.strength pwd <= 25)%nat as Hstrength.
  { unfold SetupScreen.strength.
    rewrite (test_false Generator.is_upper Generator.is_lower pwd) by
      (by intros ch Hch; apply is_lower_only in Hch as (? & ? & ?)) || done.
    rewrite (test_false Generator.is_digit Generator.is_lower pwd) by
      (by intros ch Hch; apply is_lower_only in Hch as (? & ? & ?)) || done.
    rewrite (test_false Generator.is_symbol Generator.is_lower pwd) by
      (by intros ch Hch; apply is_lower_only in Hch as (? & ? & ?)) || done.
    case_bool_decide; [lia|]. destruct (12 <=? String.length pwd)%nat; lia. }
  split; [done|]. unfold SetupScreen.isValid.
  replace (75 <=? SetupScreen.strength pwd)%nat with false; [done|].
  symmetry. apply Nat.leb_gt. lia.
Qed.

Lemma lowercase_letters_never_count_witness :
  (SetupScreen.strength "correcthorsebatterystaple" <= 25)%nat ∧
  SetupScreen.isValid "correcthorsebatterystaple" "correcthorsebatterystaple" = false.
Proof.
  apply (lowercase_letters_never_count "correcthorsebatterystaple").
  vm_compute. reflexivity.
Defined.

(** *** [LoginScreen] *)

Section WithService.

Context {V : Type} (svc : VaultService.t V).

Lemma login_loading (x : LoginScreen.State * World V) (ev : LoginScreen.Event) :
  LoginScreen.loading x.1 = true -> LoginScreen.loading (login svc x ev).1 = true.
Proof.
  destruct x as [[p r l] w]. cbn. intros ->.
  unfold login, LoginScreen.step, LoginScreen.available.
  destruct ev, r; cbn; rewrite ?andb_false_r; done.
Qed.

(** X16.  [loading] is never cleared.  No event of [LoginScreen] sets
    [loading] back to [false]: once an unlock or a recovery was
    submitted, through any later events the Unlock, Cancel and Restore
    buttons stay disabled until the screen is unmounted. *)
Theorem login_loading_sticks (s : LoginScreen.State) (w : World V)
    (evs : list LoginScreen.Event) :
  LoginScreen.loading s = true ->
  LoginScreen.loading (foldl (login svc) (s, w) evs).1 = true ∧
  LoginScreen.available (foldl (login svc) (s, w) evs).1 LoginScreen.ClickUnlock = false ∧
  LoginScreen.available (foldl (login svc) (s, w) evs).1 LoginScreen.ClickCancel = false ∧
  LoginScreen.available (foldl (login svc) (s, w) evs).1 LoginScreen.ClickRestore = false.
Proof.
  intros Hs.
  assert (LoginScreen.loading (foldl (login svc) (s, w) evs).1 = true) as Hloading.
  { revert s w Hs. induction evs as [|ev evs IH]; intros s w Hs; [done|].
    cbn [foldl]. pose proof (login_loading (s, w) ev Hs) as Hnext.
    destruct (login svc (s, w) ev) as [s' w']. by apply IH. }
  unfold LoginScreen.available.
  destruct (LoginScreen.isRecovering _); rewrite Hloading; cbn;
    by rewrite ?andb_false_r.
Qed.

Lemma login_dead (s : LoginScreen.State) (w : World V) (evs : list LoginScreen.Event) :
  LoginScreen.isRecovering s = true ->
  LoginScreen.loading s = true ->
  (foldl (login svc) (s, w) evs).2 = w ∧
  LoginScreen.isRecovering (foldl (login svc) (s, w) evs).1 = true.
Proof.
  revert s. induction evs as [|ev evs IH]; intros [p r l]; cbn; intros -> ->; [done|].
  destruct ev; unfold login at 2 4; unfold LoginScreen.step, LoginScreen.available;
    cbn; rewrite ?andb_false_r; cbn; by apply IH.
Qed.

(** X17.  A failed recovery leaves a dead screen.  In the recovery view
    of a locked vault, with a key typed and nothing submitted yet, when
    [recoverVault] rejects the click on Restore, the component stays
    [LOCKED] with the message "Invalid recovery key."; after that no
    event of [LoginScreen] (typing, Cancel, Restore again) reaches the
    application any more, and the screen never leaves the recovery
    view. *)
Theorem failed_recovery_leaves_dead_screen (s : LoginScreen.State) (w : World V)
    (v' : V) (e : VaultError) (evs : list LoginScreen.Event) :
  appState (ui w) = LOCKED ->
  LoginScreen.isRecovering s = true ->
  LoginScreen.loading s = false ->
  LoginScreen.pwd s ≠ "" ->
  VaultService.recoverVault svc (LoginScreen.pwd s) (vault w) = (v', Rejected e) ->
  (foldl (login svc) (login svc (s, w) LoginScreen.ClickRestore) evs).2 =
    (handleRecover svc (LoginScreen.pwd s) w).1 ∧
  appState (ui (handleRecover svc (LoginScreen.pwd s) w).1) = LOCKED ∧
  error (ui (handleRecover svc (LoginScreen.pwd s) w).1) = Some invalid_recovery_key ∧
  LoginScreen.isRecovering
    (foldl (login svc) (login svc (s, w) LoginScreen.ClickRestore) evs).1 = true.
Proof.
  destruct s as [p r l]. cbn. intros Hstate -> -> Hp Hcall.
  unfold login at 2 4. unfold LoginScreen.step, LoginScreen.available. cbn.
  rewrite (bool_decide_eq_false_2 _ Hp). cbn.
  unfold LoginScreen.handleRecoverClick. cbn.
  destruct (login_dead (LoginScreen.mkState p true true)
              (handleRecover svc p w).1 evs eq_refl eq_refl) as [Hworld Hview].
  rewrite (handleRecover_rejected svc w p v' e Hcall) in *. cbn.
  by rewrite Hstate.
Qed.

(** *** The submit handlers of [SetupScreen] and [ResetPasswordScreen] *)

(** X18.  The submit handlers clear [loading].  The submit of
    [SetupScreen], run on [handleSetup], always fulfils and leaves
    [loading] false, whichever way the initialization went.  The submit of
    [ResetPasswordScreen], run on [handlePasswordReset], does nothing at
    all when the two fields differ; when they agree it leaves [loading]
    false whether the reset fulfilled or rejected, and settles as
    [resetMasterPassword] did. *)
Theorem submit_clears_loading (s : SetupScreen.State) (r : ResetPasswordScreen.State)
    (w : World V) :
  ((SetupScreen.handleSubmit (handleSetup svc) s w).2 = Fulfilled tt ∧
   SetupScreen.loading (SetupScreen.handleSubmit (handleSetup svc) s w).1.1 = false ∧
   (SetupScreen.handleSubmit (handleSetup svc) s w).1.2 =
     (handleSetup svc (SetupScreen.pwd s) w).1) ∧
  (ResetPasswordScreen.pwd r ≠ ResetPasswordScreen.confirm r ->
   ResetPasswordScreen.handleSubmit (handlePasswordReset svc) r w = ((r, w), Fulfilled tt)) ∧
  (ResetPasswordScreen.pwd r = ResetPasswordScreen.confirm r ->
   ResetPasswordScreen.loading
     (ResetPasswordScreen.handleSubmit (handlePasswordReset svc) r w).1.1 = false ∧
   (ResetPasswordScreen.handleSubmit (handlePasswordReset svc) r w).1.2 =
     (handlePasswordReset svc (ResetPasswordScreen.pwd r) w).1 ∧
   (ResetPasswordScreen.handleSubmit (handlePasswordReset svc) r w).2 =
     (VaultService.resetMasterPassword svc (ResetPasswordScreen.pwd r) (vault w)).2).
Proof.
  split; [|split].
  - unfold SetupScreen.handleSubmit.
    pose proof (AppMore.handlers_settle svc w (SetupScreen.pwd s) "" "" "" hidden)
      as (Hsetup & _).
    destruct (handleSetup svc (SetupScreen.pwd s) w) as [w' [[]|e]]; [done|].
    cbn in Hsetup. discriminate.
  - intros Hne. unfold ResetPasswordScreen.handleSubmit.
    by rewrite (bool_decide_eq_true_2 _ Hne).
  - intros Heq. unfold ResetPasswordScreen.handleSubmit.
    rewrite bool_decide_eq_false_2 by (by intros Hne).
    pose proof (AppMore.handlers_settle svc w (ResetPasswordScreen.pwd r) "" "" "" hidden)
      as (_ & _ & _ & _ & _ & _ & Hreset & _).
    rewrite <- Hreset.
    by destruct (handlePasswordReset svc (ResetPasswordScreen.pwd r) w) as [w' [[]|e]].
Qed.

End WithService.

(** X16 on the scenario: after a wrong password, through typing, Enter
    and a switch to the recovery view. *)
Lemma login_loading_sticks_witness :
  let x := login Toy.service (LoginScreen.mkState "wrong" false false, Scenario.locked)
             LoginScreen.ClickUnlock in
  let evs := [LoginScreen.TypePwd "again"; LoginScreen.KeyEnter; LoginScreen.ClickUnlock;
              LoginScreen.ClickForgot; LoginScreen.TypePwd "00"; LoginScreen.ClickCancel] in
  LoginScreen.loading (foldl (login Toy.service) (x.1, x.2) evs).1 = true ∧
  LoginScreen.available (foldl (login Toy.service) (x.1, x.2) evs).1 LoginScreen.ClickUnlock
    = false ∧
  LoginScreen.available (foldl (login Toy.service) (x.1, x.2) evs).1 LoginScreen.ClickCancel
    = false ∧
  LoginScreen.available (foldl (login Toy.service) (x.1, x.2) evs).1 LoginScreen.ClickRestore
    = false.
Proof.
  intros x evs.
  apply (login_loading_sticks Toy.service x.1 x.2 evs). vm_compute. reflexivity.
Defined.

(** X17 on the scenario: a wrong recovery key on the locked vault, then
    Cancel, a new key and Restore. *)
Lemma failed_recovery_leaves_dead_screen_witness :
  let s := LoginScreen.mkState "00" true false in
  let evs := [LoginScreen.ClickCancel; LoginScreen.TypePwd Scenario.recovery;
              LoginScreen.ClickRestore] in
  (foldl (login Toy.service) (login Toy.service (s, Scenario.locked) LoginScreen.ClickRestore)
     evs).2 = (handleRecover Toy.service (LoginScreen.pwd s) Scenario.locked).1 ∧
  appState (ui (handleRecover Toy.service (LoginScreen.pwd s) Scenario.locked).1) = LOCKED ∧
  error (ui (handleRecover Toy.service (LoginScreen.pwd s) Scenario.locked).1) =
    Some invalid_recovery_key ∧
  LoginScreen.isRecovering
    (foldl (login Toy.service)
       (login Toy.service (s, Scenario.locked) LoginScreen.ClickRestore) evs).1 = true.
Proof.
  intros s evs.
  apply (failed_recovery_leaves_dead_screen Toy.service s Scenario.locked
           (vault Scenario.locked) AuthFailure evs).
  - vm_compute. reflexivity.
  - reflexivity.
  - reflexivity.
  - discriminate.
  - vm_compute. reflexivity.
Defined.

(** X18 on the scenario: a reset submitted over a store that rejects the
    write, and one submitted with two different fields. *)
Lemma submit_clears_loading_witness :
  let w := Scenario.on_faulty_store Scenario.recovered in
  let r := ResetPasswordScreen.mkState "NewPass9!" "NewPass9!" false in
  let r' := ResetPasswordScreen.mkState "NewPass9!" "NewPass8!" false in
  ResetPasswordScreen.handleSubmit (handlePasswordReset Toy.service) r' w =
    ((r', w), Fulfilled tt) ∧
  ResetPasswordScreen.loading
    (ResetPasswordScreen.handleSubmit (handlePasswordReset Toy.service) r w).1.1 = false ∧
  (VaultService.resetMasterPassword Toy.service (ResetPasswordScreen.pwd r) (vault w)).2 =
    Rejected StorageFailure.
Proof.
  intros w r r'.
  destruct (submit_clears_loading Toy.service
              (SetupScreen.mkState "" "" false) r' w) as (_ & Hdiffer & _).
  destruct (submit_clears_loading Toy.service
              (SetupScreen.mkState "" "" false) r w) as (_ & _ & Hagree).
  split; [apply Hdiffer; discriminate|].
  split; [apply Hagree; reflexivity|].
  vm_compute. reflexivity.
Defined.

End ScreensSpec.

(** * [VaultScreen], [src/App.tsx] lines 367-468 *)
Module VaultScreen.

Import App.

(** The [useState] cells of lines 368-372. *)
Record State : Type := mkState {
  isAdding : bool;
  newTitle : string;
  newUser : string;
  newPass : string;
  copiedRecovery : bool
}.

(** The component as mounted. *)
Definition initial : State := mkState false "" "" "" false.

(** [if (recoveryKey)], line 385: [null] and the empty string are falsy. *)
Definition truthy (k : option string) : bool :=
  match k with
  | Some s => negb (bool_decide (s = ""))
  | None => false
  end.

(** The three views, in the order of lines 385, 402 and 443. *)
Inductive View : Type :=
| RecoveryDialog
| AddForm
| ItemList.

Definition view (recoveryKey : option string) (s : State) : View :=
  if truthy recoveryKey then RecoveryDialog
  else if isAdding s then AddForm
  else ItemList.

(** What the user can do to the screen.  [CopyTimeout] is the timer of
    line 393.  [ClickGenerate p] is a click on the generator button of
    line 434, [p] being what [generateSecurePassword] returns;
    [ClickSave uuid] is a click on the save button of line 438, [uuid]
    being what [crypto.randomUUID] will return in [handleAdd]. *)
Inductive Event : Type :=
| ClickCopy
| CopyTimeout
| ClickSecured
| ClickCloseForm
| TypeTitle (t : string)
| TypeUser (u : string)
| TypePass (p : string)
| ClickGenerate (p : string)
| ClickSave (uuid : string)
| ClickNew
| ClickLock
| ClickToggle (id0 : string)
| ClickDelete (id0 : string).

(** Which events the rendered view takes.  The save button is
    [disabled={!newTitle || !newPass}]; a card exists for the items
    that are shown only. *)
Definition available (shown : list VaultItem) (v : View) (s : State) (ev : Event) : bool :=
  match ev, v with
  | CopyTimeout, _ => true
  | ClickCopy, RecoveryDialog | ClickSecured, RecoveryDialog => true
  | ClickCloseForm, AddForm | TypeTitle _, AddForm | TypeUser _, AddForm
  | TypePass _, AddForm | ClickGenerate _, AddForm => true
  | ClickSave _, AddForm =>
      negb (bool_decide (newTitle s = "")) && negb (bool_decide (newPass s = ""))
  | ClickNew, ItemList | ClickLock, ItemList => true
  | ClickToggle id0, ItemList | ClickDelete id0, ItemList =>
      bool_decide (id0 ∈ id <$> shown)
  | _, _ => false
  end.

Section WithProps.

Context {V : Type}.
Context (onAdd : string -> string -> string -> string -> Handler V unit).
Context (onDelete : string -> Handler V unit) (onLock : Handler V unit).
Context (toggleVisibility : string -> Handler V unit) (onCloseRecovery : Handler V unit).

(** The event handlers of lines 393-455.  The promises of [onAdd] and
    [onDelete] are dropped. *)
Definition react (ev : Event) (s : State) (w : World V) : State * World V :=
  match ev with
  | ClickCopy => (mkState (isAdding s) (newTitle s) (newUser s) (newPass s) true, w)
  | CopyTimeout => (mkState (isAdding s) (newTitle s) (newUser s) (newPass s) false, w)
  | ClickSecured => (s, (onCloseRecovery w).1)
  | ClickCloseForm => (mkState false (newTitle s) (newUser s) (newPass s) (copiedRecovery s), w)
  | TypeTitle t => (mkState (isAdding s) t (newUser s) (newPass s) (copiedRecovery s), w)
  | TypeUser u => (mkState (isAdding s) (newTitle s) u (newPass s) (copiedRecovery s), w)
  | TypePass p | ClickGenerate p =>
      (mkState (isAdding s) (newTitle s) (newUser s) p (copiedRecovery s), w)
  | ClickSave uuid =>
      (mkState false "" "" "" (copiedRecovery s),
       (onAdd uuid (newTitle s) (newUser s) (newPass s) w).1)
  | ClickNew => (mkState true (newTitle s) (newUser s) (newPass s) (copiedRecovery s), w)
  | ClickLock => (s, (onLock w).1)
  | ClickToggle id0 => (s, (toggleVisibility id0 w).1)
  | ClickDelete id0 => (s, (onDelete id0 w).1)
  end.

(** The screen is rendered in state [UNLOCKED] only (line 161), with the
    [items] and [recoveryKey] of the component as props. *)
Definition step (x : State * World V) (ev : Event) : State * World V :=
  if bool_decide (appState (ui x.2) = UNLOCKED)
     && available (items (ui x.2)) (view (recoveryKey (ui x.2)) x.1) x.1 ev
  then react ev x.1 x.2 else x.

End WithProps.

(** [VaultScreen] with the props of lines 162-166. *)
Definition mounted {V : Type} (svc : VaultService.t V)
    (x : State * World V) (ev : Event) : State * World V :=
  step (handleAdd svc) (handleDelete svc) handleLock toggleVisibility (setRecoveryKey None)
       x ev.

(** An item with a title and a password. *)
Definition titled (i : VaultItem) : bool :=
  negb (bool_decide (title i = "")) && negb (bool_decide (password i = "")).

Definition is_secured (ev : Event) : bool :=
  match ev with ClickSecured => true | _ => false end.

End VaultScreen.

(** * Properties of [VaultScreen] *)
Module VaultScreenSpec.

Import App AppSpec VaultScreen.

Lemma forallb_filter {A : Type} (f : A -> bool) (P : A -> Prop) `{forall x, Decision (P x)}
    (l : list A) :
  forallb f l = true -> forallb f (filter P l) = true.
Proof.
  induction l as [|x l IH]; [done|]. cbn [forallb]. intros [Hx Hl]%andb_prop.
  rewrite filter_cons. case_decide; [|by apply IH].
  cbn [forallb]. by rewrite Hx, IH.
Qed.

Section WithService.

Context {V : Type} (svc : VaultService.t V).

Lemma mounted_dialog (s : State) (w : World V) (ev : Event) :
  truthy (recoveryKey (ui w)) = true ->
  is_secured ev = false ->
  (mounted svc (s, w) ev).2 = w.
Proof.
  intros Hkey Hev. unfold mounted, step, view. cbn [fst snd]. rewrite Hkey.
  destruct (bool_decide (appState (ui w) = UNLOCKED)); [|done].
  destruct ev; try done.
Qed.

(** X19.  The recovery dialog comes first.  While the [recoveryKey] cell
    holds a non-empty key, for instance after every unlock that follows a
    setup whose dialog was not dismissed, [VaultScreen] shows the dialog
    only: no sequence of its events without a click on "I have secured
    this key" changes the application; nothing can be added, deleted,
    revealed or locked by hand. *)
Theorem recovery_dialog_comes_first (s : State) (w : World V) (evs : list Event) :
  truthy (recoveryKey (ui w)) = true ->
  forallb (fun ev => negb (is_secured ev)) evs = true ->
  view (recoveryKey (ui w)) s = RecoveryDialog ∧
  (foldl (mounted svc) (s, w) evs).2 = w.
Proof.
  intros Hkey Hevs. split; [unfold view; by rewrite Hkey|].
  revert s Hevs. induction evs as [|ev evs IH]; intros s Hevs; [done|].
  cbn [forallb] in Hevs. apply andb_prop in Hevs as [Hev Hevs].
  cbn [foldl].
  pose proof (mounted_dialog s w ev Hkey ltac:(by destruct (is_secured ev))) as Hw.
  destruct (mounted svc (s, w) ev) as [s' w']. cbn in Hw. subst w'.
  by apply IH.
Qed.

Lemma mounted_titled (s : State) (w : World V) (ev : Event) :
  forallb titled (items (ui w)) = true ->
  forallb titled (items (ui (mounted svc (s, w) ev).2)) = true.
Proof.
  intros Hitems. unfold mounted, step. cbn [fst snd].
  destruct (_ && _) eqn:Hon; [|done].
  apply andb_prop in Hon as [_ Havailable].
  destruct ev; cbn [react snd]; try done.
  - rewrite handleAdd_eq. cbn. rewrite forallb_app, Hitems. cbn.
    unfold available in Havailable. destruct (view _ s); try done.
    unfold titled. cbn. by rewrite Havailable.
  - rewrite handleDelete_eq. cbn. by apply forallb_filter.
Qed.

(** X20.  Every item of [VaultScreen] has a title and a password.  When
    the items that the screen starts from all have a non-empty title and
    a non-empty password, so have the items after any sequence of its
    events: the form saves nothing else, and deleting, revealing and
    locking add nothing. *)
Theorem vault_screen_keeps_items_titled (s : State) (w : World V) (evs : list Event) :
  forallb titled (items (ui w)) = true ->
  forallb titled (items (ui (foldl (mounted svc) (s, w) evs).2)) = true.
Proof.
  revert s w. induction evs as [|ev evs IH]; intros s w Hitems; [done|].
  cbn [foldl]. pose proof (mounted_titled s w ev Hitems) as Hnext.
  destruct (mounted svc (s, w) ev) as [s' w']. by apply IH.
Qed.

End WithService.

(** X19 on the toy engine: the dialog of a new vault, and clicks on
    everything but its button. *)
Lemma recovery_dialog_comes_first_witness :
  let w := App.step Toy.service (mount Toy.service Toy.fresh) (Setup Scenario.master) in
  let evs := [ClickLock; ClickNew; ClickCopy; ClickSave "1"; ClickDelete "1"; CopyTimeout] in
  view (recoveryKey (ui w)) initial = RecoveryDialog ∧
  (foldl (mounted Toy.service) (initial, w) evs).2 = w.
Proof.
  intros w evs.
  apply (recovery_dialog_comes_first Toy.service initial w evs); vm_compute; reflexivity.
Defined.

(** X20 on the scenario: a save refused for want of a password, a save
    accepted, a deletion and a lock. *)
Lemma vault_screen_keeps_items_titled_witness :
  let evs := [ClickNew; TypeTitle "Other"; ClickSave "2"; TypePass "y"; ClickSave "3";
              ClickDelete "1"] in
  items (ui (foldl (mounted Toy.service) (initial, Scenario.unlocked) evs).2) =
    [mkVaultItem "3" "Other" "" "y"] ∧
  forallb titled (items (ui (foldl (mounted Toy.service) (initial, Scenario.unlocked) evs).2))
    = true.
Proof.
  intros evs. split; [vm_compute; reflexivity|].
  apply (vault_screen_keeps_items_titled Toy.service initial Scenario.unlocked evs).
  vm_compute. reflexivity.
Defined.

End VaultScreenSpec.
